(** * Attention model for the capacitated VRP: decode loop and tour cost

    A shallow embedding of [nn.py]: the pointer decoder's masking, the
    autoregressive route construction ([decode_greedy] and its loop body
    [decode_iteration]), the entry point [solve] and the tour-length
    evaluator [get_cost].

    Conventions.
    - Arrays are lists; a batched array is a list of rows.  Index reads that
      depend on data follow JAX: an out-of-range index is clamped
      ([gather]), an out-of-range update is dropped ([set_at]).
    - [visited] and the next-node mask are int32 arrays in the source (the
      boolean operands are promoted), so they are lists of [Z] combined with
      [Z.land] and [Z.lor]; a mask entry different from 0 means forbidden.
    - Demands, capacities and scores are exact rationals; a logit is a
      rational or minus infinity.  Coordinates and tour lengths are reals.
      The source computes in single precision: what is proved of the
      remaining capacity uses only that subtracting a demand [d <= c] from
      [c] leaves a nonnegative result and that subtracting [d >= 0] does
      not increase it, which rounding preserves.  Nothing is claimed that
      needs the running difference to be exact.
    - The learned layers (dense projections, normalisation, attention
      scores) are parameters of the development: nothing is assumed of
      them. *)

From Stdlib Require Import List ZArith QArith Lia Bool Arith Reals Psatz.
Import ListNotations.

Set Implicit Arguments.
Local Open Scope nat_scope.

(** ** Arrays *)

Section Arrays.
Context {A : Type}.

(** [jnp.arange(n)]. *)
Definition arange (n : nat) : list nat := seq 0 n.

(** [x[i]] for a data-dependent index [i]: JAX clamps it into range. *)
Definition gather (d : A) (x : list A) (i : nat) : A :=
  nth (Nat.min i (length x - 1)) x d.

(** [x.at[i].set(v)]: an update outside the array is dropped. *)
Fixpoint set_at (x : list A) (i : nat) (v : A) : list A :=
  match x, i with
  | [], _ => []
  | _ :: t, O => v :: t
  | h :: t, S i' => h :: set_at t i' v
  end.

(** Entry [(b, j)] of a two-dimensional array. *)
Definition get2 (d : A) (x : list (list A)) (b j : nat) : A :=
  nth j (nth b x []) d.

(** The [(bs, n)] array whose entry [(b, j)] is [f b j]: the result of an
    elementwise (broadcast) expression over arrays of that shape. *)
Definition tabulate2 (bs n : nat) (f : nat -> nat -> A) : list (list A) :=
  map (fun b => map (f b) (arange n)) (arange bs).

(** Elementwise combination of two arrays of the same shape. *)
Fixpoint map2 {B C : Type} (f : A -> B -> C) (x : list A) (y : list B)
    : list C :=
  match x, y with
  | a :: x', b :: y' => f a b :: map2 f x' y'
  | _, _ => []
  end.

(** [jax.lax.fori_loop(lo, hi, body, init)]. *)
Definition fori_loop (lo hi : nat) (body : nat -> A -> A) (init : A) : A :=
  fold_left (fun s i => body i s) (seq lo (hi - lo)) init.
End Arrays.

(** ** Scores with minus infinity *)

Inductive ext : Type :=
| NegInf
| Fin (q : Q).

Definition Qlt_bool (x y : Q) : bool := negb (Qle_bool y x).

(** [x < y] on extended scores. *)
Definition ext_ltb (x y : ext) : bool :=
  match x, y with
  | _, NegInf => false
  | NegInf, Fin _ => true
  | Fin a, Fin b => Qlt_bool a b
  end.

Definition ext_add (x y : ext) : ext :=
  match x, y with
  | Fin a, Fin b => Fin (a + b)%Q
  | _, _ => NegInf
  end.

Definition is_fin (x : ext) : bool :=
  match x with NegInf => false | Fin _ => true end.

(** [jnp.argmax(x, axis=-1)] on one row: the first index of a maximum. *)
Fixpoint argmax_from (best : ext) (besti i : nat) (x : list ext) : nat :=
  match x with
  | [] => besti
  | y :: t =>
      if ext_ltb best y then argmax_from y i (S i) t
      else argmax_from best besti (S i) t
  end.

Definition argmax (x : list ext) : nat :=
  match x with
  | [] => 0
  | y :: t => argmax_from y 0 1 t
  end.

(** [x.max(axis=-1)] on one row. *)
Definition ext_max (x : list ext) : ext :=
  fold_left (fun m y => if ext_ltb m y then y else m) x NegInf.

Definition Qsum (x : list Q) : Q := fold_left Qplus x 0%Q.

(** [jnp.cumsum]. *)
Fixpoint cumsum_from (acc : Q) (p : list Q) : list Q :=
  match p with
  | [] => []
  | x :: t => (acc + x)%Q :: cumsum_from (acc + x)%Q t
  end.

Definition cumsum (p : list Q) : list Q := cumsum_from 0%Q p.

(** [jnp.searchsorted(a, v)] (left side) on a sorted array: the first
    position whose entry is at least [v]. *)
Fixpoint searchsorted (a : list Q) (v : Q) : nat :=
  match a with
  | [] => 0
  | x :: t => if Qle_bool v x then 0 else S (searchsorted t v)
  end.

Definition b2z (b : bool) : Z := if b then 1%Z else 0%Z.

(** Truth value of an int32 entry used as a condition. *)
Definition truthy (z : Z) : bool := negb (Z.eqb z 0).

(** ** Tour cost *)

Section TourCost.
Local Open Scope R_scope.

(** [get_cost(coords, route)] for one instance. *)
Definition get_cost (coords : list (R * R)) (route : list nat) : R :=
  let max_size := length coords in
  let src := repeat coords max_size in
  let tgt := map (fun p => repeat p max_size) coords in
  let distances :=
    map2 (map2 (fun t s =>
                  sqrt ((fst t - fst s) * (fst t - fst s)
                        + (snd t - snd s) * (snd t - snd s))))
         tgt src in
  let src := removelast route in
  let dst := tl route in
  let step_distances :=
    map2 (fun s d => gather 0 (gather [] distances s) d) src dst in
  fold_right Rplus 0 step_distances.

(** [get_costs]: [jax.vmap(get_cost)]. *)
Definition get_costs (coords : list (list (R * R)))
    (routes : list (list nat)) : list R :=
  map2 get_cost coords routes.
End TourCost.

(** ** Random streams, softmax and sampling *)

Section Model.

(** PRNG keys, [jax.random.split(k, n)[i]] and the 32-bit word that
    [jax.random.bits] draws from a key. *)
Variable key : Type.
Variable split_at : key -> nat -> nat -> key.
Variable random_bits : key -> N.

(** Exponential and logarithm on scores. *)
Variable exp_ : Q -> Q.
Variable ln_ : Q -> Q.

Definition split (k : key) (n : nat) : list key :=
  map (split_at k n) (arange n).

(** [a, b = jax.random.split(k)]. *)
Definition split2 (k : key) : key * key :=
  (split_at k 2 0, split_at k 2 1).

(** [jax.random.uniform(k)] in single precision: the top 23 bits of the
    random word are the mantissa of a float in [1, 2), from which 1 is
    subtracted; the result lies in [0, 1). *)
Definition uniform (k : key) : Q :=
  Qmake (Z.shiftr (Z.of_N (random_bits k) mod 2 ^ 32) 9) 8388608.

(** [nn.softmax(x, axis=-1)] on one row.  A row of minus infinities has no
    softmax (NaN in floating point); it is given weight 0 everywhere. *)
Definition softmax (x : list ext) : list Q :=
  match ext_max x with
  | NegInf => map (fun _ => 0%Q) x
  | Fin m =>
      let unnormalized :=
        map (fun y => match y with
                      | NegInf => 0%Q
                      | Fin q => exp_ (q - m)
                      end) x in
      map (fun u => (u / Qsum unnormalized)%Q) unnormalized
  end.

(** [nn.log_softmax(x, axis=-1)] on one row. *)
Definition log_softmax (x : list ext) : list ext :=
  match ext_max x with
  | NegInf => map (fun _ => NegInf) x
  | Fin m =>
      let shifted_logsumexp :=
        ln_ (Qsum (map (fun y => match y with
                                 | NegInf => 0%Q
                                 | Fin q => exp_ (q - m)
                                 end) x)) in
      map (fun y => match y with
                    | NegInf => NegInf
                    | Fin q => Fin (q - m - shifted_logsumexp)
                    end) x
  end.

(** [jax.random.choice(k, a, p=p)]: inverse transform sampling on the
    cumulative weights. *)
Definition choice (k : key) (p : list Q) : nat :=
  let p_cuml := cumsum p in
  let r := (last p_cuml 0 * (1 - uniform k))%Q in
  searchsorted p_cuml r.

(** ** The decode loop *)

(** Node embeddings produced by the encoder. *)
Variable tensor : Type.

(** A batch of problems: coordinates [(bs, n, 2)] and demands [(bs, n)]. *)
Definition VRP : Type := (list (list (R * R)) * list (list Q))%type.
Definition VRPEncoded : Type := tensor.
Definition VRPDecoderState : Type := (list nat * list Q)%type.
Definition NodeMask : Type := list (list Z).
Definition EncoderFn : Type := key -> VRP -> VRPEncoded.
Definition DecoderFn : Type :=
  key -> VRPEncoded -> VRPDecoderState -> NodeMask -> list (list ext).

(** The tuple carried through [fori_loop]. *)
Record loop_state : Type := LoopState {
  ls_rng : key;
  ls_sequences : list (list nat);
  ls_visited : list (list Z);
  ls_capacities : list Q;
  ls_log_probs : list ext
}.

(** [jnp.ones((bs, n), bool).at[:, 0].set(0)]. *)
Definition customer_mask (bs seq_len : nat) : list (list bool) :=
  map (fun row => set_at row 0 false) (repeat (repeat true seq_len) bs).

(** The mask built at the top of [decode_iteration] (lines 279-294). *)
Definition next_node_mask (bs seq_len : nat) (demands : list (list Q))
    (visited : list (list Z)) (capacities : list Q)
    (current_node : list nat) : NodeMask :=
  let cm := customer_mask bs seq_len in
  let m :=
    tabulate2 bs seq_len (fun b j =>
      Z.lor (Z.land (get2 0%Z visited b j) (b2z (get2 false cm b j)))
            (b2z (Qlt_bool (nth b capacities 0%Q) (get2 0%Q demands b j)))) in
  let m :=
    map (fun b => set_at (nth b m []) (nth b current_node 0) 1%Z)
        (arange bs) in
  let all_served :=
    map (fun b =>
           forallb truthy
             (map (fun j => Z.lor (get2 0%Z visited b j)
                                  (b2z (negb (get2 false cm b j))))
                  (arange seq_len)))
        (arange bs) in
  map (fun b =>
         set_at (nth b m []) 0
           (Z.land (b2z (negb (nth b all_served false))) (get2 0%Z m b 0)))
      (arange bs).

(** Action selection (lines 305-314); returns the carried key too. *)
Definition select_nodes (deterministic : bool) (bs : nat) (rng : key)
    (logits : list (list ext)) : key * list nat :=
  if deterministic then (rng, map argmax logits)
  else
    let probs := map softmax logits in
    let '(rng, sample_rng) := split2 rng in
    let rngs := split sample_rng bs in
    (rng, map (fun b => choice (nth b rngs sample_rng) (nth b probs []))
              (arange bs)).

Section Loop.
Variable decoder : DecoderFn.
Variable deterministic : bool.
Variable bs seq_len : nat.
Variable demands : list (list Q).
Variable encoded : VRPEncoded.

Definition current_nodes (idx : nat) (s : loop_state) : list nat :=
  map (fun row => gather 0 row (idx - 1)) (ls_sequences s).

Definition step_mask (idx : nat) (s : loop_state) : NodeMask :=
  next_node_mask bs seq_len demands (ls_visited s) (ls_capacities s)
    (current_nodes idx s).

Definition step_logits (idx : nat) (s : loop_state) : list (list ext) :=
  decoder (snd (split2 (ls_rng s))) encoded
    (current_nodes idx s, ls_capacities s) (step_mask idx s).

Definition decode_iteration (idx : nat) (s : loop_state) : loop_state :=
  let current_node := current_nodes idx s in
  let next_node_mask := step_mask idx s in
  let '(rng, decoder_step_rng) := split2 (ls_rng s) in
  let logits :=
    decoder decoder_step_rng encoded (current_node, ls_capacities s)
      next_node_mask in
  let '(rng, next_nodes) := select_nodes deterministic bs rng logits in
  let sequences :=
    map (fun b => set_at (nth b (ls_sequences s) []) idx
                         (nth b next_nodes 0))
        (arange bs) in
  let visited :=
    map (fun b => set_at (nth b (ls_visited s) []) (nth b next_nodes 0)
                         1%Z)
        (arange bs) in
  let capacities :=
    map (fun b => Qminus (nth b (ls_capacities s) 0%Q)
                    (gather 0%Q (nth b demands []) (nth b next_nodes 0)))
        (arange bs) in
  let capacities :=
    map (fun b => if Nat.eqb (nth b next_nodes 0) 0 then 1%Q
                  else nth b capacities 0%Q)
        (arange bs) in
  let step_log_probs :=
    map (fun b => gather NegInf (log_softmax (nth b logits []))
                         (nth b next_nodes 0))
        (arange bs) in
  let log_probs :=
    map (fun b => ext_add (nth b (ls_log_probs s) NegInf)
                          (nth b step_log_probs NegInf))
        (arange bs) in
  LoopState rng sequences visited capacities log_probs.

Definition decode_init (rng : key) : loop_state :=
  LoopState rng
    (repeat (repeat 0 (2 * seq_len)) bs)
    (map (fun row => set_at row 0 1%Z) (repeat (repeat 0%Z seq_len) bs))
    (repeat 1%Q bs)
    (repeat (Fin 0) bs).

(** The loop state when iteration [t] starts. *)
Definition decode_state (rng : key) (t : nat) : loop_state :=
  fori_loop 1 t decode_iteration (decode_init rng).
End Loop.

(** The loop state of [decode_greedy] when iteration [t] starts. *)
Definition decode_trace (encoder : EncoderFn) (decoder : DecoderFn)
    (rng : key) (problems : VRP) (deterministic : bool) (t : nat)
    : loop_state :=
  let '(coords, demands) := problems in
  let bs := length coords in
  let seq_len := length (hd [] coords) in
  let '(rng, encoder_rng) := split2 rng in
  let encoded := encoder encoder_rng problems in
  decode_state decoder deterministic bs seq_len demands encoded rng t.

(** The mask and the logits computed in iteration [t]. *)
Definition decode_mask (encoder : EncoderFn) (decoder : DecoderFn)
    (rng : key) (problems : VRP) (deterministic : bool) (t : nat)
    : NodeMask :=
  let '(coords, demands) := problems in
  step_mask (length coords) (length (hd [] coords)) demands t
    (decode_trace encoder decoder rng problems deterministic t).

Definition decode_logits (encoder : EncoderFn) (decoder : DecoderFn)
    (rng : key) (problems : VRP) (deterministic : bool) (t : nat)
    : list (list ext) :=
  let '(coords, demands) := problems in
  step_logits decoder (length coords) (length (hd [] coords)) demands
    (encoder (snd (split2 rng)) problems) t
    (decode_trace encoder decoder rng problems deterministic t).

(** [decode_greedy]: the loop runs iterations [1 .. 2 * seq_len - 1]. *)
Definition decode_greedy (encoder : EncoderFn) (decoder : DecoderFn)
    (rng : key) (problems : VRP) (deterministic : bool)
    : list (list nat) * list ext :=
  let seq_len := length (hd [] (fst problems)) in
  let final :=
    decode_trace encoder decoder rng problems deterministic
      (2 * seq_len) in
  (ls_sequences final, ls_log_probs final).

(** ** The network *)

(** The learned layers of [VRPEncoder] and [PointerDecoder], with the
    stream that Flax derives for a dropout site from the key passed as
    [rngs={"dropout": rng}].  A layer takes its parameters first; encoder
    layers take the index of their block. *)
Variable enc_params dec_params : Type.

Record Layers : Type := {
  num_layers : nat;
  num_heads : nat;
  make_rng : key -> nat -> nat -> key;
  (* VRPNodeEmbedding *)
  encode_depot : enc_params -> list (list (R * R)) -> tensor;
  encode_customers : enc_params -> list (list (R * R * Q)) -> tensor;
  concatenate : tensor -> tensor -> tensor;
  (* TransformerEncoderBlock *)
  enc_mha : enc_params -> nat -> option key -> tensor -> tensor ->
            option NodeMask -> tensor;
  mlp1 : enc_params -> nat -> tensor -> tensor;
  mlp2 : enc_params -> nat -> tensor -> tensor;
  norm1 : enc_params -> nat -> tensor -> tensor;
  norm2 : enc_params -> nat -> tensor -> tensor;
  relu : tensor -> tensor;
  add : tensor -> tensor -> tensor;
  dropout_mask : key -> tensor -> tensor;
  (* PointerDecoder *)
  context : dec_params -> tensor -> list nat -> list Q -> tensor;
  mha_scores : dec_params -> tensor -> tensor -> nat -> nat -> nat -> Q;
  mha_out : dec_params -> list (list (list Q)) -> tensor -> tensor;
  pointer_scores : dec_params -> tensor -> tensor -> nat -> nat -> Q
}.

Variable net : Layers.

(** [nn.Dropout(rate)(x, deterministic)]. *)
Definition Dropout (rng : key) (layer site : nat) (deterministic : bool)
    (x : tensor) : tensor :=
  if deterministic then x
  else dropout_mask net (make_rng net rng layer site) x.

(** [TransformerEncoderBlock.__call__] of block [layer]. *)
Definition TransformerEncoderBlock_call (p : enc_params) (rng : key)
    (layer : nat) (x : tensor) (mask : option NodeMask)
    (deterministic : bool) : tensor :=
  let mha_out :=
    enc_mha net p layer
      (if deterministic then None else Some (make_rng net rng layer 0))
      x x mask in
  let mha_out := norm1 net p layer (add net x mha_out) in
  let mlp_out := mlp1 net p layer mha_out in
  let mlp_out := relu net mlp_out in
  let mlp_out := Dropout rng layer 1 deterministic mlp_out in
  let mlp_out := mlp2 net p layer mlp_out in
  norm2 net p layer (add net mha_out mlp_out).

(** [VRPNodeEmbedding.__call__]. *)
Definition VRPNodeEmbedding_call (p : enc_params) (nodes : VRP) : tensor :=
  let '(coords, demands) := nodes in
  concatenate net
    (encode_depot net p (map (firstn 1) coords))
    (encode_customers net p
       (map2 (fun c d => combine c d)
             (map (skipn 1) coords) (map (skipn 1) demands))).

(** [VRPEncoder.__call__]. *)
Definition VRPEncoder_call (p : enc_params) (rng : key) (nodes : VRP)
    (mask : option NodeMask) (deterministic : bool) : tensor :=
  fold_left
    (fun x layer =>
       TransformerEncoderBlock_call p rng layer x mask deterministic)
    (arange (num_layers net))
    (VRPNodeEmbedding_call p nodes).

(** The attention weights of [nn.MultiHeadDotProductAttention] for one
    query: [softmax(where(mask, scores, big_neg))].  Flax keeps the
    positions whose mask entry is true and fills the others with the most
    negative float, whose exponential relative to a kept score is 0; when
    no position is kept all scores are equal and the weights uniform. *)
Definition dot_product_attention_weights (scores : list Q)
    (mask : list Z) : list Q :=
  if existsb truthy mask then
    softmax (map2 (fun m s => if truthy m then Fin s else NegInf)
                  mask scores)
  else map (fun _ => (1 / inject_Z (Z.of_nat (length scores)))%Q) scores.

(** The weights used by [self.mha] inside [PointerDecoder.__call__]
    (lines 132-136): per batch element and head, over the nodes; the mask
    is passed as [mask[:, None, None, :]]. *)
Definition PointerDecoder_attention (p : dec_params) (Q1 : tensor)
    (node_embeddings : tensor) (mask : NodeMask) : list (list (list Q)) :=
  map (fun b =>
         map (fun h =>
                dot_product_attention_weights
                  (map (mha_scores net p Q1 node_embeddings b h)
                       (arange (length (nth b mask []))))
                  (nth b mask []))
             (arange (num_heads net)))
      (arange (length mask)).

(** [PointerDecoder.__call__]. *)
Definition PointerDecoder_call (p : dec_params) (node_embeddings : tensor)
    (states : VRPDecoderState) (mask : NodeMask) (deterministic : bool)
    : list (list ext) :=
  let '(state_nodes, capacities) := states in
  let Q1 := context net p node_embeddings state_nodes capacities in
  let Q2 :=
    mha_out net p (PointerDecoder_attention p Q1 node_embeddings mask)
      node_embeddings in
  let logits := pointer_scores net p Q2 node_embeddings in
  map (fun b =>
         map (fun j => if truthy (get2 0%Z mask b j) then NegInf
                       else Fin (logits b j))
             (arange (length (nth b mask []))))
      (arange (length mask)).

(** The closures [encode] and [decode] of [AttentionModel.solve]. *)
Definition encode (params : enc_params * dec_params) (deterministic : bool)
    : EncoderFn :=
  fun rng problems =>
    VRPEncoder_call (fst params) rng problems None deterministic.

Definition decode (params : enc_params * dec_params) (deterministic : bool)
    : DecoderFn :=
  fun rng encoded states mask =>
    PointerDecoder_call (snd params) encoded states mask deterministic.

(** [AttentionModel.solve]. *)
Definition solve (params : enc_params * dec_params) (rng : key)
    (problems : VRP) (deterministic : bool)
    : list R * list ext * list (list nat) :=
  let '(routes, log_probs) :=
    decode_greedy (encode params deterministic)
      (decode params deterministic) rng problems deterministic in
  let costs := get_costs (fst problems) routes in
  (costs, log_probs, routes).

(** What a run of [solve] goes through: the loop state when iteration [t]
    starts, and the mask and logits computed in that iteration. *)
Definition solve_state (params : enc_params * dec_params) (rng : key)
    (problems : VRP) (deterministic : bool) (t : nat) : loop_state :=
  decode_trace (encode params deterministic) (decode params deterministic)
    rng problems deterministic t.

Definition solve_mask (params : enc_params * dec_params) (rng : key)
    (problems : VRP) (deterministic : bool) (t : nat) : NodeMask :=
  decode_mask (encode params deterministic) (decode params deterministic)
    rng problems deterministic t.

Definition solve_logits (params : enc_params * dec_params) (rng : key)
    (problems : VRP) (deterministic : bool) (t : nat) : list (list ext) :=
  decode_logits (encode params deterministic) (decode params deterministic)
    rng problems deterministic t.

End Model.

(** ** Well-formed problems *)

(** The arrays have the shapes [(bs, n, 2)] and [(bs, n)] with a depot
    ([n >= 1]), the depot demand is 0 and no demand exceeds the capacity. *)
Definition valid_problem (problems : VRP) : bool :=
  let '(coords, demands) := problems in
  let n := length (hd [] coords) in
  Nat.ltb 0 n
  && Nat.eqb (length demands) (length coords)
  && forallb (fun row => Nat.eqb (length row) n) coords
  && forallb (fun row => Nat.eqb (length row) n
                         && Qeq_bool (nth 0 row 0%Q) 0
                         && forallb (fun q => Qle_bool q 1) row) demands.

(** No demand is negative. *)
Definition nonneg_demands (problems : VRP) : bool :=
  forallb (forallb (Qle_bool 0)) (snd problems).

(** * Notions used in the statements and proofs *)

Unset Implicit Arguments.

(** ** One batch element *)

(** Every customer of a row of [visited] is marked. *)
Definition row_served (N : nat) (vis : list Z) : bool :=
  forallb truthy
    (map (fun j => Z.lor (nth j vis 0%Z) (b2z (Nat.eqb j 0))) (arange N)).

(** Row [b] of [next_node_mask], as a function of row [b] of its inputs. *)
Definition row_mask (N : nat) (d : list Q) (vis : list Z) (cap : Q)
    (cur : nat) : list Z :=
  let m :=
    map (fun j => Z.lor (Z.land (nth j vis 0%Z) (b2z (negb (Nat.eqb j 0))))
                        (b2z (Qlt_bool cap (nth j d 0%Q))))
        (arange N) in
  let m := set_at m cur 1%Z in
  set_at m 0 (Z.land (b2z (negb (row_served N vis))) (nth 0 m 0%Z)).

(** Customers not yet marked visited. *)
Definition unvisited (vis : list Z) : nat :=
  length (filter (Z.eqb 0) (tl vis)).

(** Demand served since the last depot visit along a route prefix. *)
Definition load (d : list Q) (l : list nat) : Q :=
  fold_left (fun acc x => if Nat.eqb x 0 then 0%Q else (acc + nth x d 0)%Q)
            l 0%Q.

(** [c] is a node the mask allows. *)
Definition legal (N : nat) (d : list Q) (vis : list Z) (cap : Q)
    (cur c : nat) : Prop :=
  c < N /\ nth c (row_mask N d vis cap cur) 0%Z = 0%Z.

(** What holds of one batch element when iteration [t] starts. *)
Record row_inv (N t : nat) (sq : list nat) (vis : list Z) (cap : Q)
    : Prop := {
  inv_len_seq : length sq = 2 * N;
  inv_len_vis : length vis = N;
  inv_range : forall i, nth i sq 0 < N;
  inv_bits : forall j, nth j vis 0%Z = 0%Z \/ nth j vis 0%Z = 1%Z;
  inv_visited : forall j, 1 <= j < N ->
    (nth j vis 0%Z = 1%Z <-> exists i, i < t /\ nth i sq 0 = j);
  inv_cap_nonneg : (0 <= cap)%Q;
  inv_cap_depot : nth (t - 1) sq 0 = 0 -> (cap == 1)%Q;
  inv_progress :
    unvisited vis = 0 \/
    2 * unvisited vis + t <=
    2 * N - 2 + (if Nat.eqb (nth (t - 1) sq 0) 0 then 1 else 0)
}.

(** The capacity bookkeeping of one batch element. *)
Record cap_inv (d : list Q) (t : nat) (sq : list nat) (cap : Q) : Prop := {
  cap_le_one : (cap <= 1)%Q;
  cap_is_rest : (cap == 1 - load d (firstn t sq))%Q;
  cap_loads : forall t', t' <= t -> (load d (firstn t' sq) <= 1)%Q
}.

(** ** The batch *)

(** A decoder that gives minus infinity exactly to the masked nodes, and
    returns logits of the shape of the mask. *)
Definition respects_mask {key tensor : Type} (decoder : DecoderFn key tensor)
    : Prop :=
  forall k e st (m : NodeMask),
    length (decoder k e st m) = length m /\
    forall b, b < length m ->
      length (nth b (decoder k e st m) []) = length (nth b m []) /\
      forall j, j < length (nth b m []) ->
        is_fin (nth j (nth b (decoder k e st m) []) NegInf) =
        Z.eqb (nth j (nth b m []) 0%Z) 0.

(** The nodes selected in iteration [idx] from loop state [s]. *)
Definition step_choice (key : Type) (split_at : key -> nat -> nat -> key)
    (random_bits : key -> N) (exp_ : Q -> Q) (tensor : Type)
    (decoder : DecoderFn key tensor) (deterministic : bool) (bs N : nat)
    (demands : list (list Q)) (encoded : tensor) (idx : nat)
    (s : loop_state key) : list nat :=
  snd (select_nodes split_at random_bits exp_ deterministic bs
         (fst (split2 split_at (ls_rng s)))
         (step_logits split_at decoder bs N demands encoded idx s)).

(** The node selected for batch element [b] in iteration [t] of the loop. *)
Definition chosen (key : Type) (split_at : key -> nat -> nat -> key)
    (random_bits : key -> N) (exp_ ln_ : Q -> Q) (tensor : Type)
    (decoder : DecoderFn key tensor) (deterministic : bool) (bs n : nat)
    (demands : list (list Q)) (encoded : tensor) (rng : key) (t b : nat)
    : nat :=
  nth b (step_choice key split_at random_bits exp_ tensor decoder
           deterministic bs n demands encoded t
           (decode_state split_at random_bits exp_ ln_ decoder deterministic
              bs n demands encoded rng t)) 0.

(** Two loop states that agree on everything but the key. *)
Definition same_but_rng {key : Type} (s1 s2 : loop_state key) : Prop :=
  ls_sequences s1 = ls_sequences s2
  /\ ls_visited s1 = ls_visited s2
  /\ ls_capacities s1 = ls_capacities s2
  /\ ls_log_probs s1 = ls_log_probs s2.

(** ** Tour length, as the specification words it *)

(** Euclidean distance between two points. *)
Definition euclid (p q : R * R) : R :=
  sqrt ((fst p - fst q) * (fst p - fst q)
        + (snd p - snd q) * (snd p - snd q))%R.

(** The sum, over consecutive route positions, of the distance between the
    node at a position and the node at the next one. *)
Fixpoint tour_length_spec (coords : list (R * R)) (route : list nat) : R :=
  match route with
  | a :: ((b :: _) as rest) =>
      (euclid (nth a coords (0, 0)%R) (nth b coords (0, 0)%R)
       + tour_length_spec coords rest)%R
  | _ => 0%R
  end.

(** ** A small instance

    One problem with a depot at (0,0) and two customers at (1,0) and (0,1)
    of demand 1/2 each, and a network whose pointer scores grow with the
    node index. *)

Definition demo_split (k : N) (n i : nat) : N :=
  (k * 31 + N.of_nat n * 7 + N.of_nat i + 1)%N.

Definition demo_bits (k : N) : N := (k * 2654435761 mod 4294967296)%N.

Definition demo_exp (x : Q) : Q :=
  if Qle_bool 0 x then (1 + x)%Q else (1 / (1 - x))%Q.

Definition demo_ln (x : Q) : Q := (x - 1)%Q.

Definition demo_net : Layers N unit unit unit :=
  {| num_layers := 1;
     num_heads := 1;
     make_rng := fun k l s => demo_split k l s;
     encode_depot := fun _ _ => tt;
     encode_customers := fun _ _ => tt;
     concatenate := fun _ _ => tt;
     enc_mha := fun _ _ _ _ _ _ => tt;
     mlp1 := fun _ _ _ => tt;
     mlp2 := fun _ _ _ => tt;
     norm1 := fun _ _ _ => tt;
     norm2 := fun _ _ _ => tt;
     relu := fun _ => tt;
     add := fun _ _ => tt;
     dropout_mask := fun _ _ => tt;
     context := fun _ _ _ _ => tt;
     mha_scores := fun _ _ _ _ _ j => inject_Z (Z.of_nat j);
     mha_out := fun _ _ _ => tt;
     pointer_scores := fun _ _ _ _ j => inject_Z (Z.of_nat j) |}.

Definition demo_coords : list (R * R) := [(0, 0); (1, 0); (0, 1)]%R.

Definition demo_problem : VRP := ([demo_coords], [[0; 1 # 2; 1 # 2]%Q]).

(** The runs of [solve] on the instance, with key 5. *)
Definition demo_solve (deterministic : bool)
    : list R * list ext * list (list nat) :=
  solve demo_split demo_bits demo_exp demo_ln demo_net (tt, tt) 5%N
    demo_problem deterministic.

Definition demo_state (deterministic : bool) (t : nat) : loop_state N :=
  solve_state demo_split demo_bits demo_exp demo_ln demo_net (tt, tt) 5%N
    demo_problem deterministic t.

Definition demo_mask (deterministic : bool) (t : nat) : NodeMask :=
  solve_mask demo_split demo_bits demo_exp demo_ln demo_net (tt, tt) 5%N
    demo_problem deterministic t.

(** * Properties *)

(** ** Array lemmas *)

Section ArrayFacts.
Context {A : Type}.
Implicit Types (x : list A) (i j n : nat).

Lemma length_arange n : length (arange n) = n.
Proof. apply length_seq. Qed.

Lemma nth_arange n i d : i < n -> nth i (arange n) d = i.
Proof. intros H. unfold arange. rewrite seq_nth; auto. Qed.

Lemma nth_map_arange {B : Type} (f : nat -> B) n i d :
  i < n -> nth i (map f (arange n)) d = f i.
Proof.
  intros H.
  rewrite (nth_indep _ d (f 0)) by (rewrite length_map, length_arange; exact H).
  rewrite (map_nth f (arange n) 0 i). now rewrite nth_arange.
Qed.

Lemma length_map_arange {B : Type} (f : nat -> B) n :
  length (map f (arange n)) = n.
Proof. now rewrite length_map, length_arange. Qed.

Lemma nth_map_in {B : Type} (f : A -> B) x i d d' :
  i < length x -> nth i (map f x) d' = f (nth i x d).
Proof.
  intros H. rewrite (nth_indep _ d' (f d)) by (now rewrite length_map).
  apply map_nth.
Qed.

Lemma length_set_at x i v : length (set_at x i v) = length x.
Proof.
  revert i; induction x as [|h t IH]; intros [|i]; simpl; auto.
Qed.

Lemma nth_set_at_eq x i v d : i < length x -> nth i (set_at x i v) d = v.
Proof.
  revert i; induction x as [|h t IH]; intros [|i] H; simpl in *;
    try lia; auto.
  apply IH; lia.
Qed.

Lemma nth_set_at_ne x i j v d : i <> j -> nth j (set_at x i v) d = nth j x d.
Proof.
  revert i j; induction x as [|h t IH]; intros [|i] [|j] H; simpl;
    try congruence; auto.
Qed.

Lemma nth_set_at x i j v d :
  nth j (set_at x i v) d =
  if Nat.eqb i j && Nat.ltb i (length x) then v else nth j x d.
Proof.
  destruct (Nat.eqb_spec i j) as [->|Hne]; simpl.
  - destruct (Nat.ltb_spec j (length x)) as [Hlt|Hge].
    + now apply nth_set_at_eq.
    + rewrite !nth_overflow; auto. now rewrite length_set_at.
  - now apply nth_set_at_ne.
Qed.

Lemma firstn_set_at_ge x i n v : n <= i -> firstn n (set_at x i v) = firstn n x.
Proof.
  revert i n; induction x as [|h t IH]; intros [|i] [|n] H; simpl;
    try lia; auto.
  f_equal. apply IH. lia.
Qed.

Lemma firstn_S_set_at x i v :
  i < length x -> firstn (S i) (set_at x i v) = firstn i x ++ [v].
Proof.
  revert i; induction x as [|h t IH]; intros [|i] H; simpl in *;
    try lia; auto.
  f_equal. apply IH. lia.
Qed.

Lemma in_firstn x n (a : A) : In a (firstn n x) -> In a x.
Proof.
  revert n; induction x as [|h t IH]; intros [|n] H; simpl in *;
    try contradiction.
  destruct H as [H|H]; eauto.
Qed.

Lemma gather_in_range d x i : i < length x -> gather d x i = nth i x d.
Proof. intros H. unfold gather. f_equal. lia. Qed.

Lemma fori_loop_nil lo (body : nat -> A -> A) init :
  fori_loop lo lo body init = init.
Proof. unfold fori_loop. now rewrite Nat.sub_diag. Qed.

Lemma fori_loop_nil' lo hi (body : nat -> A -> A) init :
  hi <= lo -> fori_loop lo hi body init = init.
Proof.
  intros H. unfold fori_loop. now replace (hi - lo) with 0 by lia.
Qed.

Lemma fori_loop_S lo t (body : nat -> A -> A) init :
  lo <= t ->
  fori_loop lo (S t) body init = body t (fori_loop lo t body init).
Proof.
  intros H. unfold fori_loop.
  replace (S t - lo) with (S (t - lo)) by lia.
  rewrite seq_S, fold_left_app. simpl.
  now replace (lo + (t - lo)) with t by lia.
Qed.

Lemma nth_repeat_in (a : A) n i d : i < n -> nth i (repeat a n) d = a.
Proof.
  revert i; induction n as [|n IH]; intros [|i] H; simpl; try lia; auto.
  apply IH. lia.
Qed.
End ArrayFacts.

Lemma length_map2 {A B C : Type} (f : A -> B -> C) (x : list A) : forall y,
  length (map2 f x y) = Nat.min (length x) (length y).
Proof.
  induction x as [|a x IH]; intros [|b y]; simpl; auto.
Qed.

Lemma nth_map2 {A B C : Type} (f : A -> B -> C) (x : list A) :
  forall (y : list B) (i : nat) (dx : A) (dy : B) (d : C),
  i < length x -> i < length y ->
  nth i (map2 f x y) d = f (nth i x dx) (nth i y dy).
Proof.
  induction x as [|a x IH]; intros [|b y] [|i] dx dy d Hx Hy; simpl in *;
    try lia; auto.
  apply IH; lia.
Qed.

(** ** Action selection never picks a node whose logit is minus infinity *)

Lemma Qlt_bool_iff (x y : Q) : Qlt_bool x y = true <-> (x < y)%Q.
Proof.
  unfold Qlt_bool. rewrite negb_true_iff.
  split; intros H.
  - apply Qnot_le_lt. intros Hle. apply Qle_bool_iff in Hle. congruence.
  - destruct (Qle_bool y x) eqn:E; auto.
    apply Qle_bool_iff in E. apply Qle_not_lt in E. contradiction.
Qed.

Lemma Qlt_bool_false_iff (x y : Q) : Qlt_bool x y = false <-> (y <= x)%Q.
Proof.
  unfold Qlt_bool. rewrite negb_false_iff. apply Qle_bool_iff.
Qed.

Lemma ext_ltb_fin_r (x y : ext) : ext_ltb x y = true -> is_fin y = true.
Proof. destruct x, y; simpl; auto. Qed.

Lemma ext_ltb_neginf_l (y : ext) : ext_ltb NegInf y = false -> is_fin y = false.
Proof. destruct y; simpl; auto. Qed.

Lemma is_fin_not_neginf (x : ext) : is_fin x = true <-> x <> NegInf.
Proof. destruct x; simpl; split; congruence. Qed.

Lemma argmax_from_spec (x : list ext) : forall best besti i,
  let r := argmax_from best besti i x in
  (r = besti /\ (is_fin best = true \/ forall y, In y x -> is_fin y = false))
  \/ (i <= r < i + length x /\ is_fin (nth (r - i) x NegInf) = true).
Proof.
  induction x as [|y t IH]; intros best besti i; simpl.
  - left. split; auto. right. intros y [].
  - destruct (ext_ltb best y) eqn:E.
    + right. destruct (IH y i (S i)) as [[Hr _]|[Hr Hf]].
      * rewrite Hr. split; [lia|]. rewrite Nat.sub_diag.
        now apply ext_ltb_fin_r in E.
      * split; [lia|].
        replace (argmax_from y i (S i) t - i)
          with (S (argmax_from y i (S i) t - S i)) by lia.
        exact Hf.
    + destruct (IH best besti (S i)) as [[Hr Hf]|[Hr Hf]].
      * left. split; auto. destruct Hf as [Hf|Hf]; auto.
        destruct best as [|q]; auto.
        right. intros z [<-|Hz]; [now apply ext_ltb_neginf_l | auto].
      * right. split; [lia|].
        replace (argmax_from best besti (S i) t - i)
          with (S (argmax_from best besti (S i) t - S i)) by lia.
        exact Hf.
Qed.

Lemma argmax_legal (x : list ext) :
  (exists j, is_fin (nth j x NegInf) = true) ->
  argmax x < length x /\ is_fin (nth (argmax x) x NegInf) = true.
Proof.
  intros [j Hj]. destruct x as [|y t].
  - destruct j; discriminate.
  - unfold argmax.
    destruct (argmax_from_spec t y 0 1) as [[Hr Hf]|[Hr Hf]].
    + rewrite Hr. simpl. split; [lia|].
      destruct Hf as [Hf|Hf]; auto.
      destruct j as [|j]; auto. simpl in Hj.
      destruct (Nat.lt_ge_cases j (length t)) as [Hlt|Hge].
      * rewrite Hf in Hj; [discriminate|]. now apply nth_In.
      * rewrite nth_overflow in Hj by exact Hge. discriminate.
    + simpl length. split; [lia|].
      remember (argmax_from y 0 1 t) as r.
      destruct r as [|r]; [lia|]. simpl.
      now replace (S r - 1) with r in Hf by lia.
Qed.

Lemma last_cons_default (a : Q) (l : list Q) (d : Q) : last (a :: l) d = last l a.
Proof.
  revert a d. induction l as [|b l IH]; intros a d; auto.
  change (last (a :: b :: l) d) with (last (b :: l) d).
  rewrite (IH b d). symmetry. apply (IH b a).
Qed.

Lemma last_cumsum_ge (p : list Q) : forall acc,
  (forall y, In y p -> 0 <= y)%Q ->
  (acc <= last (cumsum_from acc p) acc)%Q.
Proof.
  induction p as [|x t IH]; intros acc Hp; simpl cumsum_from.
  - simpl. lra.
  - rewrite last_cons_default.
    assert (0 <= x)%Q by (apply Hp; now left).
    specialize (IH (acc + x)%Q (fun y Hy => Hp y (or_intror Hy))). lra.
Qed.

Lemma last_cumsum_gt (p : list Q) : forall acc y,
  (forall z, In z p -> 0 <= z)%Q -> In y p -> (0 < y)%Q ->
  (acc < last (cumsum_from acc p) acc)%Q.
Proof.
  induction p as [|x t IH]; intros acc y Hp Hin Hy; [destruct Hin|].
  simpl cumsum_from. rewrite last_cons_default.
  assert (Hx : (0 <= x)%Q) by (apply Hp; now left).
  assert (Ht : (forall z, In z t -> 0 <= z)%Q) by (intros z Hz; apply Hp; now right).
  destruct Hin as [->|Hin].
  - pose proof (last_cumsum_ge t (acc + y) Ht). lra.
  - pose proof (IH (acc + x)%Q y Ht Hin Hy). lra.
Qed.

Lemma searchsorted_cumsum (p : list Q) : forall acc r,
  (acc < r)%Q -> (r <= last (cumsum_from acc p) acc)%Q ->
  searchsorted (cumsum_from acc p) r < length p
  /\ (0 < nth (searchsorted (cumsum_from acc p) r) p 0)%Q.
Proof.
  induction p as [|x t IH]; intros acc r Hlo Hhi.
  - simpl in Hhi. lra.
  - simpl cumsum_from in *. rewrite last_cons_default in Hhi. simpl.
    destruct (Qle_bool r (acc + x)) eqn:E.
    + apply Qle_bool_iff in E. split; [lia|]. lra.
    + assert (Hlt : (acc + x < r)%Q).
      { apply Qnot_le_lt. intros Hle. apply Qle_bool_iff in Hle. congruence. }
      destruct (IH (acc + x)%Q r Hlt Hhi) as [H1 H2]. split; [lia|exact H2].
Qed.

Lemma fold_Qplus_ge (u : list Q) : forall acc,
  (forall y, In y u -> 0 <= y)%Q -> (acc <= fold_left Qplus u acc)%Q.
Proof.
  induction u as [|x t IH]; intros acc Hu; simpl; [lra|].
  assert (0 <= x)%Q by (apply Hu; now left).
  specialize (IH (acc + x)%Q (fun y Hy => Hu y (or_intror Hy))). lra.
Qed.

Lemma fold_Qplus_gt (u : list Q) : forall acc y,
  (forall z, In z u -> 0 <= z)%Q -> In y u -> (0 < y)%Q ->
  (acc < fold_left Qplus u acc)%Q.
Proof.
  induction u as [|x t IH]; intros acc y Hu Hin Hy; [destruct Hin|]. simpl.
  assert (Hx : (0 <= x)%Q) by (apply Hu; now left).
  assert (Ht : (forall z, In z t -> 0 <= z)%Q) by (intros z Hz; apply Hu; now right).
  destruct Hin as [->|Hin].
  - pose proof (fold_Qplus_ge t (acc + y) Ht). lra.
  - pose proof (IH (acc + x)%Q y Ht Hin Hy). lra.
Qed.

Lemma ext_max_fold_fin (x : list ext) : forall m0,
  is_fin m0 = true \/ (exists y, In y x /\ is_fin y = true) ->
  is_fin (fold_left (fun m y => if ext_ltb m y then y else m) x m0) = true.
Proof.
  induction x as [|y t IH]; intros m0 H; simpl.
  - destruct H as [H|[y [[] _]]]; exact H.
  - apply IH. destruct (ext_ltb m0 y) eqn:E.
    + left. now apply ext_ltb_fin_r in E.
    + destruct H as [H|[z [[<-|Hz] Hf]]]; auto.
      * left. destruct m0; auto. apply ext_ltb_neginf_l in E. congruence.
      * right. now exists z.
Qed.

Section SelectionFacts.
Variable key : Type.
Variable random_bits : key -> N.
Variable exp_ : Q -> Q.
Hypothesis exp_pos : forall x, (0 < exp_ x)%Q.

Lemma uniform_range (k : key) :
  (0 <= uniform random_bits k)%Q /\ (uniform random_bits k < 1)%Q.
Proof.
  unfold uniform.
  set (z := (Z.of_N (random_bits k) mod 2 ^ 32)%Z).
  assert (Hz : (0 <= z < 2 ^ 32)%Z) by (apply Z.mod_pos_bound; lia).
  assert (Hn : (0 <= Z.shiftr z 9 < 8388608)%Z).
  { rewrite Z.shiftr_div_pow2 by lia. split.
    - apply Z.div_pos; lia.
    - apply Z.div_lt_upper_bound; lia. }
  unfold Qle, Qlt; simpl. lia.
Qed.

Lemma softmax_weights (x : list ext) :
  (exists j, is_fin (nth j x NegInf) = true) ->
  let p := softmax exp_ x in
  length p = length x
  /\ (forall y, In y p -> 0 <= y)%Q
  /\ (exists y, In y p /\ 0 < y)%Q
  /\ (forall i, 0 < nth i p 0 -> is_fin (nth i x NegInf) = true)%Q
  /\ (forall i, is_fin (nth i x NegInf) = true -> 0 < nth i p 0)%Q.
Proof.
  intros [j Hj]. unfold softmax.
  assert (Hjl : j < length x).
  { destruct (Nat.lt_ge_cases j (length x)); auto.
    rewrite nth_overflow in Hj by assumption. discriminate. }
  assert (Hm : is_fin (ext_max x) = true).
  { apply ext_max_fold_fin. right. exists (nth j x NegInf).
    split; auto. now apply nth_In. }
  destruct (ext_max x) as [|m]; [discriminate|].
  set (g := fun y => match y with NegInf => 0%Q | Fin q => exp_ (q - m) end).
  set (u := map g x).
  assert (Hu : (forall z, In z u -> 0 <= z)%Q).
  { intros z Hz. apply in_map_iff in Hz. destruct Hz as [y [<- _]].
    destruct y; simpl; [lra|]. apply Qlt_le_weak, exp_pos. }
  assert (Hgj : (0 < g (nth j x NegInf))%Q).
  { destruct (nth j x NegInf); [discriminate|]. apply exp_pos. }
  assert (HS : (0 < Qsum u)%Q).
  { unfold Qsum. apply fold_Qplus_gt with (y := g (nth j x NegInf)); auto.
    apply in_map. now apply nth_In. }
  cbv zeta. repeat split.
  - unfold u. now rewrite !length_map.
  - intros y Hy. apply in_map_iff in Hy. destruct Hy as [z [<- Hz]].
    apply Qle_shift_div_l; auto. specialize (Hu z Hz). lra.
  - exists (g (nth j x NegInf) / Qsum u)%Q. split.
    + apply in_map with (f := fun v => (v / Qsum u)%Q).
      apply in_map. now apply nth_In.
    + apply Qlt_shift_div_l; auto. lra.
  - intros i Hi.
    destruct (Nat.lt_ge_cases i (length x)) as [Hlt|Hge].
    + rewrite (@nth_map_in _ _ (fun v => (v / Qsum u)%Q) u i 0%Q 0%Q) in Hi
        by (unfold u; now rewrite length_map).
      unfold u in Hi at 1. rewrite (@nth_map_in _ _ g x i NegInf 0%Q) in Hi by exact Hlt.
      destruct (nth i x NegInf); auto. simpl in Hi.
      unfold Qdiv in Hi. rewrite Qmult_0_l in Hi. lra.
    + rewrite nth_overflow in Hi; [lra|].
      unfold u. now rewrite !length_map.
  - intros i Hi.
    assert (Hlt : i < length x).
    { destruct (Nat.lt_ge_cases i (length x)); auto.
      rewrite nth_overflow in Hi by assumption. discriminate. }
    rewrite (@nth_map_in _ _ (fun v => (v / Qsum u)%Q) u i 0%Q 0%Q)
      by (unfold u; now rewrite length_map).
    unfold u at 1. rewrite (@nth_map_in _ _ g x i NegInf 0%Q) by exact Hlt.
    apply Qlt_shift_div_l; auto.
    destruct (nth i x NegInf); [discriminate|]. simpl.
    pose proof (exp_pos (q - m)). lra.
Qed.

Lemma choice_legal (k : key) (x : list ext) :
  (exists j, is_fin (nth j x NegInf) = true) ->
  choice random_bits k (softmax exp_ x) < length x
  /\ is_fin (nth (choice random_bits k (softmax exp_ x)) x NegInf) = true.
Proof.
  intros Hx. destruct (softmax_weights x Hx) as (Hlen & Hnn & [y [Hin Hy]] & Hfin & _).
  unfold choice.
  set (p := softmax exp_ x) in *.
  set (T := last (cumsum p) 0%Q).
  assert (HT : (0 < T)%Q) by (apply last_cumsum_gt with (y := y); auto).
  destruct (uniform_range k) as [Hu0 Hu1].
  assert (Hr : (0 < T * (1 - uniform random_bits k)
                /\ T * (1 - uniform random_bits k) <= T)%Q) by (split; nra).
  destruct (@searchsorted_cumsum p 0%Q (T * (1 - uniform random_bits k))%Q)
    as [H1 H2]; [tauto | tauto |].
  fold (cumsum p) in H1, H2. split; [lia|]. now apply Hfin.
Qed.
End SelectionFacts.

(** ** The mask of one batch element *)

Lemma Zlor_b2z_0 (a : Z) (b : bool) :
  Z.lor a (b2z b) = 0%Z <-> a = 0%Z /\ b = false.
Proof.
  rewrite Z.lor_eq_0_iff. destruct b; simpl; intuition congruence.
Qed.

Lemma customer_mask_spec (bs n b j : nat) :
  b < bs -> j < n -> get2 false (customer_mask bs n) b j = negb (Nat.eqb j 0).
Proof.
  intros Hb Hj. unfold get2, customer_mask.
  rewrite (@nth_map_in _ _ (fun row => set_at row 0 false) _ b [] [])
    by (now rewrite repeat_length).
  rewrite nth_repeat_in by exact Hb.
  rewrite nth_set_at, repeat_length.
  destruct j as [|j]; simpl.
  - destruct n; [lia|reflexivity].
  - rewrite nth_repeat_in by lia. reflexivity.
Qed.

Section RowMask.
Variable N : nat.
Variable d : list Q.

Lemma row_mask_length vis cap cur : length (row_mask N d vis cap cur) = N.
Proof. unfold row_mask. now rewrite !length_set_at, length_map_arange. Qed.

Lemma row_mask_customer vis cap cur j :
  1 <= j < N ->
  nth j (row_mask N d vis cap cur) 0%Z =
  if Nat.eqb cur j then 1%Z
  else Z.lor (Z.land (nth j vis 0%Z) 1) (b2z (Qlt_bool cap (nth j d 0%Q))).
Proof.
  intros Hj. unfold row_mask.
  rewrite nth_set_at_ne by lia.
  rewrite nth_set_at, length_map_arange.
  destruct (Nat.eqb_spec cur j) as [->|Hne]; simpl.
  - destruct (Nat.ltb_spec j N); [reflexivity|lia].
  - rewrite nth_map_arange by lia.
    destruct (Nat.eqb_spec j 0); [lia|reflexivity].
Qed.

Lemma row_mask_depot vis cap cur :
  0 < N ->
  nth 0 (row_mask N d vis cap cur) 0%Z =
  Z.land (b2z (negb (row_served N vis)))
         (if Nat.eqb cur 0 then 1%Z else b2z (Qlt_bool cap (nth 0 d 0%Q))).
Proof.
  intros HN. unfold row_mask.
  rewrite nth_set_at_eq by (now rewrite length_set_at, length_map_arange).
  f_equal. rewrite nth_set_at, length_map_arange.
  destruct (Nat.eqb_spec cur 0) as [->|Hne]; simpl.
  - destruct (Nat.ltb_spec 0 N); [reflexivity|lia].
  - rewrite nth_map_arange by lia. simpl. now rewrite Z.land_0_r.
Qed.

Lemma row_served_iff vis :
  row_served N vis = true <-> forall j, 1 <= j < N -> nth j vis 0%Z <> 0%Z.
Proof.
  unfold row_served. rewrite forallb_forall. split.
  - intros H j Hj Hz.
    specialize (H (Z.lor (nth j vis 0%Z) (b2z (Nat.eqb j 0)))).
    rewrite Hz in H. destruct (Nat.eqb_spec j 0); [lia|].
    simpl in H. discriminate H.
    apply in_map_iff. exists j. rewrite Hz.
    destruct (Nat.eqb_spec j 0); [lia|]. split; auto.
    apply in_seq. lia.
  - intros H z Hz. apply in_map_iff in Hz. destruct Hz as [j [<- Hj]].
    apply in_seq in Hj. unfold truthy. apply negb_true_iff, Z.eqb_neq.
    rewrite Zlor_b2z_0. intros [Hv He].
    apply Nat.eqb_neq in He. apply (H j); [lia|exact Hv].
Qed.
End RowMask.

Lemma forallb_false_witness {A : Type} (f : A -> bool) (l : list A) :
  forallb f l = false -> exists x, In x l /\ f x = false.
Proof.
  induction l as [|a l IH]; simpl; [discriminate|].
  destruct (f a) eqn:E; simpl.
  - intros H. destruct (IH H) as [x [Hx Hf]]. exists x. auto.
  - intros _. exists a. auto.
Qed.

Lemma row_served_false (N : nat) (vis : list Z) :
  row_served N vis = false -> exists j, 1 <= j < N /\ nth j vis 0%Z = 0%Z.
Proof.
  intros H. apply forallb_false_witness in H. destruct H as [z [Hz Hf]].
  apply in_map_iff in Hz. destruct Hz as [j [<- Hj]]. apply in_seq in Hj.
  unfold truthy in Hf. apply negb_false_iff, Z.eqb_eq, Zlor_b2z_0 in Hf.
  destruct Hf as [Hv He]. apply Nat.eqb_neq in He. exists j. split; [lia|auto].
Qed.

Lemma next_node_mask_length bs n demands visited caps cur :
  length (next_node_mask bs n demands visited caps cur) = bs.
Proof. unfold next_node_mask. apply length_map_arange. Qed.

Lemma next_node_mask_row bs n demands visited caps cur b :
  b < bs ->
  nth b (next_node_mask bs n demands visited caps cur) [] =
  row_mask n (nth b demands []) (nth b visited []) (nth b caps 0%Q)
    (nth b cur 0).
Proof.
  intros Hb. unfold next_node_mask, row_mask, row_served, tabulate2, get2.
  rewrite nth_map_arange by exact Hb.
  rewrite !nth_map_arange by exact Hb.
  assert (E1 :
    map (fun j =>
           Z.lor (Z.land (nth j (nth b visited []) 0%Z)
                    (b2z (nth j (nth b (customer_mask bs n) []) false)))
                 (b2z (Qlt_bool (nth b caps 0%Q) (nth j (nth b demands []) 0%Q))))
        (arange n) =
    map (fun j =>
           Z.lor (Z.land (nth j (nth b visited []) 0%Z)
                    (b2z (negb (Nat.eqb j 0))))
                 (b2z (Qlt_bool (nth b caps 0%Q) (nth j (nth b demands []) 0%Q))))
        (arange n)).
  { apply map_ext_in. intros j Hj. apply in_seq in Hj.
    change (nth j (nth b (customer_mask bs n) []) false)
      with (get2 false (customer_mask bs n) b j).
    rewrite customer_mask_spec by lia. reflexivity. }
  assert (E2 :
    map (fun j =>
           Z.lor (nth j (nth b visited []) 0%Z)
                 (b2z (negb (nth j (nth b (customer_mask bs n) []) false))))
        (arange n) =
    map (fun j => Z.lor (nth j (nth b visited []) 0%Z) (b2z (Nat.eqb j 0)))
        (arange n)).
  { apply map_ext_in. intros j Hj. apply in_seq in Hj.
    change (nth j (nth b (customer_mask bs n) []) false)
      with (get2 false (customer_mask bs n) b j).
    rewrite customer_mask_spec by lia. now rewrite negb_involutive. }
  rewrite E1, E2. reflexivity.
Qed.

(** ** One batch element as a transition system *)

Lemma count_zero_set (l : list Z) : forall c,
  c < length l -> nth c l 0%Z = 0%Z ->
  S (length (filter (Z.eqb 0) (set_at l c 1%Z))) = length (filter (Z.eqb 0) l).
Proof.
  induction l as [|h t IH]; intros [|c] Hc Hz;
    cbn [length nth set_at filter] in *; try lia.
  - subst h. reflexivity.
  - destruct (Z.eqb 0 h); cbn [length]; rewrite <- (IH c); auto; lia.
Qed.

Lemma count_zero_none (l : list Z) :
  length (filter (Z.eqb 0) l) = 0 <->
  forall j, j < length l -> nth j l 0%Z <> 0%Z.
Proof.
  induction l as [|h t IH]; cbn [length filter].
  - split; auto. intros _ j Hj. lia.
  - destruct (Z.eqb_spec 0 h) as [<-|Hne]; cbn [length].
    + split; [discriminate|]. intros H. exfalso.
      apply (H 0); [lia|reflexivity].
    + rewrite IH. split.
      * intros H [|j] Hj; cbn [nth]; [congruence|]. apply H. lia.
      * intros H j Hj. apply (H (S j)). lia.
Qed.

Lemma unvisited_set_depot (vis : list Z) :
  unvisited (set_at vis 0 1%Z) = unvisited vis.
Proof. destruct vis; reflexivity. Qed.

Lemma unvisited_set_customer (vis : list Z) (c : nat) :
  1 <= c < length vis -> nth c vis 0%Z = 0%Z ->
  S (unvisited (set_at vis c 1%Z)) = unvisited vis.
Proof.
  destruct vis as [|v rest]; simpl; [lia|].
  destruct c as [|c]; [lia|]. intros Hc Hz. unfold unvisited. simpl.
  apply count_zero_set; [lia|exact Hz].
Qed.

Lemma unvisited_zero_iff (vis : list Z) :
  unvisited vis = 0 <->
  forall j, 1 <= j < length vis -> nth j vis 0%Z <> 0%Z.
Proof.
  unfold unvisited. rewrite count_zero_none. destruct vis as [|v rest]; simpl.
  - split; intros _ j Hj; lia.
  - split.
    + intros H [|j] Hj; [lia|]. apply H. lia.
    + intros H j Hj. apply (H (S j)). lia.
Qed.

Lemma load_snoc (d : list Q) (l : list nat) (c : nat) :
  load d (l ++ [c]) =
  if Nat.eqb c 0 then 0%Q else (load d l + nth c d 0)%Q.
Proof. unfold load. rewrite fold_left_app. reflexivity. Qed.

Lemma load_all_depot (d : list Q) (l : list nat) :
  (forall x, In x l -> x = 0) -> load d l = 0%Q.
Proof.
  destruct l as [|a l] using rev_ind; intros H; [reflexivity|].
  rewrite load_snoc. rewrite (H a); [reflexivity|].
  apply in_or_app. right. now left.
Qed.

Section RowInvariant.
Variable N : nat.
Variable d : list Q.
Hypothesis HN : 0 < N.
Hypothesis Hdepot : (nth 0 d 0 == 0)%Q.
Hypothesis Hfit : forall j, j < N -> (nth j d 0 <= 1)%Q.

Lemma legal_cases vis cap cur c :
  (forall j, nth j vis 0%Z = 0%Z \/ nth j vis 0%Z = 1%Z) ->
  legal N d vis cap cur c ->
  (c <> 0 /\ c <> cur /\ nth c vis 0%Z = 0%Z /\ (nth c d 0 <= cap)%Q)
  \/ (c = 0 /\ (row_served N vis = true
                \/ (cur <> 0 /\ (nth 0 d 0 <= cap)%Q))).
Proof.
  intros Hbits [Hc Hm]. destruct c as [|c].
  - right. split; auto. rewrite row_mask_depot in Hm by exact HN.
    destruct (row_served N vis); auto. right.
    destruct (Nat.eqb_spec cur 0) as [->|Hne]; [discriminate Hm|].
    split; auto. simpl in Hm.
    destruct (Qlt_bool cap (nth 0 d 0%Q)) eqn:E; [discriminate Hm|].
    now apply Qlt_bool_false_iff.
  - left. rewrite row_mask_customer in Hm by lia.
    destruct (Nat.eqb_spec cur (S c)) as [->|Hne]; [discriminate Hm|].
    apply Zlor_b2z_0 in Hm. destruct Hm as [Hv Hq].
    repeat split; auto.
    + destruct (Hbits (S c)) as [E|E]; auto. rewrite E in Hv. discriminate.
    + now apply Qlt_bool_false_iff.
Qed.

Lemma legal_depot_when_served vis cap cur :
  row_served N vis = true -> legal N d vis cap cur 0.
Proof.
  intros Hs. split; auto. rewrite row_mask_depot by exact HN.
  rewrite Hs. reflexivity.
Qed.

(** At least one node is allowed. *)
Lemma legal_exists t sq vis cap :
  row_inv N t sq vis cap -> exists c, legal N d vis cap (nth (t - 1) sq 0) c.
Proof.
  intros I. destruct (row_served N vis) eqn:Hs.
  - exists 0. now apply legal_depot_when_served.
  - destruct (row_served_false N vis Hs) as [j [Hj Hz]].
    destruct (Nat.eq_dec (nth (t - 1) sq 0) 0) as [Hcur|Hcur].
    + exists j. split; [lia|]. rewrite row_mask_customer by lia.
      rewrite Hcur. destruct (Nat.eqb_spec 0 j); [lia|].
      rewrite Hz. simpl.
      pose proof (inv_cap_depot _ _ _ _ _ I Hcur) as Hcap.
      assert (E : Qlt_bool cap (nth j d 0%Q) = false).
      { apply Qlt_bool_false_iff. pose proof (Hfit j ltac:(lia)). lra. }
      rewrite E. reflexivity.
    + exists 0. split; auto. rewrite row_mask_depot by exact HN.
      destruct (Nat.eqb_spec (nth (t - 1) sq 0) 0); [contradiction|].
      assert (E : Qlt_bool cap (nth 0 d 0%Q) = false).
      { apply Qlt_bool_false_iff. pose proof (inv_cap_nonneg _ _ _ _ _ I). lra. }
      rewrite E. simpl. now rewrite Z.land_0_r.
Qed.
Lemma row_inv_init :
  row_inv N 1 (repeat 0 (2 * N)) (set_at (repeat 0%Z N) 0 1%Z) 1%Q.
Proof.
  constructor.
  - apply repeat_length.
  - now rewrite length_set_at, repeat_length.
  - intros i. now rewrite nth_repeat.
  - intros j. rewrite nth_set_at.
    destruct (Nat.eqb 0 j && Nat.ltb 0 (length (repeat 0%Z N))); auto.
    left. apply nth_repeat.
  - intros j Hj. rewrite nth_set_at_ne by lia. rewrite nth_repeat.
    split; [discriminate|]. intros [i [Hi E]]. rewrite nth_repeat in E. lia.
  - lra.
  - intros _. reflexivity.
  - right. rewrite nth_repeat. simpl Nat.eqb. cbv iota.
    destruct N as [|n]; [lia|]. unfold unvisited. simpl set_at. simpl tl.
    assert (E : forall m, length (filter (Z.eqb 0) (repeat 0%Z m)) = m).
    { induction m as [|m IH]; simpl; auto. }
    rewrite E. lia.
Qed.

Lemma row_inv_step t sq vis cap c :
  1 <= t < 2 * N ->
  row_inv N t sq vis cap ->
  legal N d vis cap (nth (t - 1) sq 0) c ->
  row_inv N (S t) (set_at sq t c) (set_at vis c 1%Z)
          (if Nat.eqb c 0 then 1%Q else (cap - nth c d 0)%Q).
Proof.
  intros Ht I L.
  pose proof (legal_cases _ _ _ _ (inv_bits _ _ _ _ _ I) L) as Hc.
  destruct L as [HcN _].
  pose proof (inv_len_seq _ _ _ _ _ I) as Hls.
  pose proof (inv_len_vis _ _ _ _ _ I) as Hlv.
  assert (Hnew : nth t (set_at sq t c) 0 = c) by (apply nth_set_at_eq; lia).
  constructor.
  - now rewrite length_set_at.
  - now rewrite length_set_at.
  - intros i. rewrite nth_set_at.
    destruct (Nat.eqb t i && Nat.ltb t (length sq)); auto.
    apply (inv_range _ _ _ _ _ I).
  - intros j. rewrite nth_set_at.
    destruct (Nat.eqb c j && Nat.ltb c (length vis)); auto.
    apply (inv_bits _ _ _ _ _ I).
  - intros j Hj. rewrite nth_set_at.
    destruct (Nat.eqb_spec c j) as [->|Hne]; simpl.
    + destruct (Nat.ltb_spec j (length vis)); [|lia].
      split; auto. intros _. exists t. split; [lia|exact Hnew].
    + rewrite (inv_visited _ _ _ _ _ I j Hj). split.
      * intros [i [Hi E]]. exists i. split; [lia|].
        rewrite nth_set_at_ne by lia. exact E.
      * intros [i [Hi E]]. destruct (Nat.eq_dec i t) as [->|Hit].
        -- congruence.
        -- exists i. split; [lia|]. rewrite nth_set_at_ne in E by lia. exact E.
  - pose proof (inv_cap_nonneg _ _ _ _ _ I).
    destruct Hc as [(Hc0 & _ & _ & Hq)|[-> _]].
    + destruct (Nat.eqb_spec c 0); [contradiction|]. lra.
    + simpl. lra.
  - replace (S t - 1) with t by lia. rewrite Hnew. intros ->. reflexivity.
  - replace (S t - 1) with t by lia. rewrite Hnew.
    destruct Hc as [(Hc0 & _ & Hv & _)|[-> Hd]].
    + destruct (Nat.eqb_spec c 0); [contradiction|].
      assert (HU : S (unvisited (set_at vis c 1%Z)) = unvisited vis)
        by (apply unvisited_set_customer; [lia|exact Hv]).
      destruct (inv_progress _ _ _ _ _ I) as [HP|HP]; [lia|].
      right. destruct (Nat.eqb (nth (t - 1) sq 0) 0); lia.
    + rewrite unvisited_set_depot. simpl Nat.eqb. cbv iota.
      destruct Hd as [Hs|[Hcur _]].
      * left. apply unvisited_zero_iff. rewrite Hlv.
        now apply row_served_iff.
      * destruct (inv_progress _ _ _ _ _ I) as [HP|HP]; [now left|].
        right. destruct (Nat.eqb_spec (nth (t - 1) sq 0) 0); [contradiction|].
        lia.
Qed.

(** Every customer is visited once the progress measure is exhausted. *)
Lemma row_inv_complete t sq vis cap j :
  row_inv N t sq vis cap -> 2 * N - 2 <= t -> 1 <= j < N ->
  exists i, i < t /\ nth i sq 0 = j.
Proof.
  intros I Ht Hj.
  assert (HU : unvisited vis = 0).
  { destruct (inv_progress _ _ _ _ _ I) as [HP|HP]; auto.
    destruct (Nat.eqb (nth (t - 1) sq 0) 0); lia. }
  apply (inv_visited _ _ _ _ _ I j Hj).
  destruct (inv_bits _ _ _ _ _ I j) as [E|E]; auto.
  exfalso. rewrite unvisited_zero_iff in HU.
  apply (HU j); [rewrite (inv_len_vis _ _ _ _ _ I); lia | exact E].
Qed.

(** *** Capacity bookkeeping, for nonnegative demands *)

Hypothesis Hnonneg : forall j, j < N -> (0 <= nth j d 0)%Q.

Lemma cap_inv_init : cap_inv d 1 (repeat 0 (2 * N)) 1%Q.
Proof.
  assert (E : forall t', load d (firstn t' (repeat 0 (2 * N))) = 0%Q).
  { intros t'. apply load_all_depot. intros x Hx.
    apply in_firstn in Hx. now apply repeat_spec in Hx. }
  constructor.
  - lra.
  - rewrite E. lra.
  - intros t' _. rewrite E. lra.
Qed.

Lemma cap_inv_step t sq vis cap c :
  1 <= t < 2 * N ->
  row_inv N t sq vis cap -> cap_inv d t sq cap ->
  legal N d vis cap (nth (t - 1) sq 0) c ->
  cap_inv d (S t) (set_at sq t c)
          (if Nat.eqb c 0 then 1%Q else (cap - nth c d 0)%Q).
Proof.
  intros Ht I C L.
  pose proof (legal_cases _ _ _ _ (inv_bits _ _ _ _ _ I) L) as Hc.
  destruct L as [HcN _].
  pose proof (inv_len_seq _ _ _ _ _ I) as Hls.
  pose proof (cap_le_one _ _ _ _ C) as H1.
  pose proof (cap_is_rest _ _ _ _ C) as H2.
  pose proof (Hnonneg c HcN) as H3.
  assert (E : firstn (S t) (set_at sq t c) = firstn t sq ++ [c])
    by (apply firstn_S_set_at; lia).
  assert (Hload : (load d (firstn (S t) (set_at sq t c)) ==
                   1 - (if Nat.eqb c 0 then 1 else cap - nth c d 0))%Q).
  { rewrite E, load_snoc. destruct (Nat.eqb c 0); lra. }
  assert (Hcap' : (0 <= (if Nat.eqb c 0 then 1 else cap - nth c d 0))%Q).
  { destruct Hc as [(Hc0 & _ & _ & Hq)|[-> _]].
    - destruct (Nat.eqb_spec c 0); [contradiction|]. lra.
    - simpl. lra. }
  constructor.
  - destruct (Nat.eqb c 0); lra.
  - rewrite Hload. lra.
  - intros t' Ht'. destruct (Nat.eq_dec t' (S t)) as [->|Hne].
    + rewrite Hload. lra.
    + rewrite firstn_set_at_ge by lia. apply (cap_loads _ _ _ _ C). lia.
Qed.
End RowInvariant.

(** ** The batched loop *)

Lemma PointerDecoder_respects_mask {key tensor enc_params dec_params : Type}
    (exp_ : Q -> Q) (net : Layers key tensor enc_params dec_params)
    (params : enc_params * dec_params) (deterministic : bool) :
  respects_mask (decode exp_ net params deterministic).
Proof.
  intros k e [state_nodes capacities] m. unfold decode, PointerDecoder_call.
  split; [apply length_map_arange|].
  intros b Hb. rewrite nth_map_arange by exact Hb.
  split; [apply length_map_arange|].
  intros j Hj. rewrite nth_map_arange by exact Hj.
  unfold get2, truthy. destruct (Z.eqb (nth j (nth b m []) 0%Z) 0); reflexivity.
Qed.

Section BatchLoop.
Variable key : Type.
Variable split_at : key -> nat -> nat -> key.
Variable random_bits : key -> N.
Variables exp_ ln_ : Q -> Q.
Variable tensor : Type.
Variable decoder : DecoderFn key tensor.
Variable deterministic : bool.
Variables bs N : nat.
Variable demands : list (list Q).
Variable encoded : tensor.

Let iteration :=
  decode_iteration split_at random_bits exp_ ln_ decoder deterministic bs N
    demands encoded.
Let mask_at := @step_mask key bs N demands.
Let logits_at := step_logits split_at decoder bs N demands encoded.

Local Abbreviation choice_at :=
  (step_choice key split_at random_bits exp_ tensor decoder deterministic bs N
     demands encoded).

Lemma iteration_sequences idx s b :
  b < bs ->
  nth b (ls_sequences (iteration idx s)) [] =
  set_at (nth b (ls_sequences s) []) idx (nth b (choice_at idx s) 0).
Proof.
  intros Hb. unfold iteration, decode_iteration, step_choice, logits_at,
    step_logits, split2. cbv zeta. cbn [fst snd].
  destruct (select_nodes _ _ _ _ _ _ _) as [r nn]. cbn [ls_sequences snd].
  now rewrite nth_map_arange.
Qed.

Lemma iteration_visited idx s b :
  b < bs ->
  nth b (ls_visited (iteration idx s)) [] =
  set_at (nth b (ls_visited s) []) (nth b (choice_at idx s) 0) 1%Z.
Proof.
  intros Hb. unfold iteration, decode_iteration, step_choice, logits_at,
    step_logits, split2. cbv zeta. cbn [fst snd].
  destruct (select_nodes _ _ _ _ _ _ _) as [r nn]. cbn [ls_visited snd].
  now rewrite nth_map_arange.
Qed.

Lemma iteration_capacities idx s b :
  b < bs ->
  nth b (ls_capacities (iteration idx s)) 0%Q =
  if Nat.eqb (nth b (choice_at idx s) 0) 0 then 1%Q
  else (nth b (ls_capacities s) 0
        - gather 0 (nth b demands []) (nth b (choice_at idx s) 0%nat))%Q.
Proof.
  intros Hb. unfold iteration, decode_iteration, step_choice, logits_at,
    step_logits, split2. cbv zeta. cbn [fst snd].
  destruct (select_nodes _ _ _ _ _ _ _) as [r nn]. cbn [ls_capacities snd].
  now rewrite !nth_map_arange.
Qed.

Lemma iteration_log_probs idx s b :
  b < bs ->
  nth b (ls_log_probs (iteration idx s)) NegInf =
  ext_add (nth b (ls_log_probs s) NegInf)
    (gather NegInf (log_softmax exp_ ln_ (nth b (logits_at idx s) []))
            (nth b (choice_at idx s) 0)).
Proof.
  intros Hb. unfold iteration, decode_iteration, step_choice, logits_at,
    step_logits, split2. cbv zeta. cbn [fst snd].
  destruct (select_nodes _ _ _ _ _ _ _) as [r nn]. cbn [ls_log_probs snd].
  now rewrite !nth_map_arange.
Qed.

Lemma mask_at_row idx s b :
  b < bs ->
  nth b (mask_at idx s) [] =
  row_mask N (nth b demands []) (nth b (ls_visited s) [])
    (nth b (ls_capacities s) 0%Q) (nth b (current_nodes idx s) 0).
Proof. intros Hb. apply next_node_mask_row. exact Hb. Qed.

Hypothesis exp_pos : forall x, (0 < exp_ x)%Q.
Hypothesis Hdec : respects_mask decoder.

(** The selected node is allowed whenever some node is. *)
Lemma step_choice_legal idx s b :
  b < bs ->
  (exists j, j < N /\ nth j (nth b (mask_at idx s) []) 0%Z = 0%Z) ->
  nth b (choice_at idx s) 0 < N
  /\ nth (nth b (choice_at idx s) 0) (nth b (mask_at idx s) []) 0%Z = 0%Z.
Proof.
  intros Hb [j [Hj Hm]].
  assert (Hml : length (mask_at idx s) = bs) by apply next_node_mask_length.
  assert (Hrl : length (nth b (mask_at idx s) []) = N).
  { rewrite mask_at_row by exact Hb. apply row_mask_length. }
  unfold step_choice, logits_at, step_logits.
  fold (mask_at idx s).
  set (lg := decoder _ _ _ (mask_at idx s)).
  destruct (Hdec (snd (split2 split_at (ls_rng s))) encoded
              (current_nodes idx s, ls_capacities s) (mask_at idx s))
    as [Hl Hrows].
  fold lg in Hl, Hrows. rewrite Hml in Hl, Hrows.
  destruct (Hrows b Hb) as [Hlr Hfin]. rewrite Hrl in Hlr, Hfin.
  assert (Hex : exists i, is_fin (nth i (nth b lg []) NegInf) = true).
  { exists j. rewrite Hfin by exact Hj. now apply Z.eqb_eq. }
  assert (Hsel : forall c, c < N ->
            is_fin (nth c (nth b lg []) NegInf) = true ->
            c < N /\ nth c (nth b (mask_at idx s) []) 0%Z = 0%Z).
  { intros c Hc Hf. split; auto. rewrite Hfin in Hf by exact Hc.
    now apply Z.eqb_eq. }
  unfold select_nodes. destruct deterministic; cbn [snd].
  - assert (E : nth b (map argmax lg) 0 = argmax (nth b lg []))
      by exact (map_nth argmax lg [] b).
    rewrite E. destruct (argmax_legal _ Hex) as [H1 H2].
    apply Hsel; [lia|exact H2].
  - unfold split2. cbn [snd]. rewrite nth_map_arange by exact Hb.
    assert (E : nth b (map (softmax exp_) lg) [] = softmax exp_ (nth b lg []))
      by exact (map_nth (softmax exp_) lg [] b).
    rewrite E.
    match goal with
    | |- context [choice random_bits ?k _] =>
        destruct (choice_legal _ random_bits exp_ exp_pos k _ Hex) as [H1 H2]
    end.
    apply Hsel; [lia|exact H2].
Qed.
End BatchLoop.

Lemma valid_problem_spec (coords : list (list (R * R)))
    (demands : list (list Q)) (b : nat) :
  valid_problem (coords, demands) = true ->
  b < length coords ->
  let n := length (hd [] coords) in
  0 < n
  /\ length (nth b demands []) = n
  /\ (nth 0 (nth b demands []) 0 == 0)%Q
  /\ forall j, j < n -> (nth j (nth b demands []) 0 <= 1)%Q.
Proof.
  unfold valid_problem. intros H Hb. cbv zeta.
  apply andb_prop in H. destruct H as [H Hd].
  apply andb_prop in H. destruct H as [H _].
  apply andb_prop in H. destruct H as [Hn Hl].
  apply Nat.ltb_lt in Hn. apply Nat.eqb_eq in Hl.
  rewrite forallb_forall in Hd.
  assert (Hin : In (nth b demands []) demands) by (apply nth_In; lia).
  specialize (Hd _ Hin).
  apply andb_prop in Hd. destruct Hd as [Hd Hle].
  apply andb_prop in Hd. destruct Hd as [Hlen H0].
  apply Nat.eqb_eq in Hlen. apply Qeq_bool_iff in H0.
  repeat split; auto.
  intros j Hj. rewrite forallb_forall in Hle.
  apply Qle_bool_iff. apply Hle. apply nth_In. lia.
Qed.

Lemma nonneg_demands_spec (coords : list (list (R * R)))
    (demands : list (list Q)) (b j : nat) :
  nonneg_demands (coords, demands) = true ->
  (0 <= nth j (nth b demands []) 0)%Q.
Proof.
  unfold nonneg_demands. cbn [snd]. intros H.
  destruct (Nat.lt_ge_cases b (length demands)) as [Hb|Hb].
  - rewrite forallb_forall in H. specialize (H _ (nth_In demands [] Hb)).
    destruct (Nat.lt_ge_cases j (length (nth b demands []))) as [Hj|Hj].
    + rewrite forallb_forall in H. apply Qle_bool_iff. apply H.
      now apply nth_In.
    + rewrite nth_overflow by exact Hj. lra.
  - rewrite (nth_overflow demands) by exact Hb. destruct j; simpl; lra.
Qed.

Lemma gather_nil {A : Type} (d : A) (i : nat) : gather d [] i = d.
Proof. unfold gather. now destruct (Nat.min i (length (@nil A) - 1)). Qed.

Lemma current_nodes_row {key : Type} (idx : nat) (s : loop_state key) (b : nat) :
  nth b (current_nodes idx s) 0 = gather 0 (nth b (ls_sequences s) []) (idx - 1).
Proof.
  unfold current_nodes.
  destruct (Nat.lt_ge_cases b (length (ls_sequences s))) as [Hb|Hb].
  - now rewrite (@nth_map_in _ _ (fun row => gather 0 row (idx - 1)) _ b [] 0).
  - rewrite !nth_overflow; [now rewrite gather_nil | exact Hb |].
    now rewrite length_map.
Qed.

Section BatchInvariant.
Variable key : Type.
Variable split_at : key -> nat -> nat -> key.
Variable random_bits : key -> N.
Variables exp_ ln_ : Q -> Q.
Variable tensor : Type.
Variable decoder : DecoderFn key tensor.
Variable deterministic : bool.
Variables bs n : nat.
Variable demands : list (list Q).
Variable encoded : tensor.
Variable rng : key.

Hypothesis exp_pos : forall x, (0 < exp_ x)%Q.
Hypothesis Hdec : respects_mask decoder.
Hypothesis Hn : 0 < n.
Hypothesis Hlen : forall b, b < bs -> length (nth b demands []) = n.
Hypothesis Hdepot : forall b, b < bs -> (nth 0 (nth b demands []) 0 == 0)%Q.
Hypothesis Hfit :
  forall b j, b < bs -> j < n -> (nth j (nth b demands []) 0 <= 1)%Q.

Let state :=
  decode_state split_at random_bits exp_ ln_ decoder deterministic bs n
    demands encoded rng.

Local Abbreviation chosen_at :=
  (chosen key split_at random_bits exp_ ln_ tensor decoder deterministic bs n
     demands encoded rng).

Lemma state_S t :
  1 <= t ->
  state (S t) =
  decode_iteration split_at random_bits exp_ ln_ decoder deterministic bs n
    demands encoded t (state t).
Proof. intros Ht. unfold state, decode_state. now apply fori_loop_S. Qed.

Lemma state_1 : state 1 = decode_init bs n rng.
Proof. unfold state, decode_state. apply fori_loop_nil. Qed.

Lemma state_row_S t b :
  1 <= t -> b < bs ->
  nth b (ls_sequences (state (S t))) [] =
    set_at (nth b (ls_sequences (state t)) []) t (chosen_at t b)
  /\ nth b (ls_visited (state (S t))) [] =
    set_at (nth b (ls_visited (state t)) []) (chosen_at t b) 1%Z
  /\ nth b (ls_capacities (state (S t))) 0%Q =
    (if Nat.eqb (chosen_at t b) 0 then 1%Q
     else (nth b (ls_capacities (state t)) 0
           - gather 0 (nth b demands []) (chosen_at t b))%Q).
Proof.
  intros Ht Hb. rewrite state_S by exact Ht. unfold chosen.
  rewrite iteration_sequences, iteration_visited, iteration_capacities
    by exact Hb.
  auto.
Qed.

Local Abbreviation row_inv_at t b :=
  (row_inv n t (nth b (ls_sequences (state t)) [])
     (nth b (ls_visited (state t)) [])
     (nth b (ls_capacities (state t)) 0%Q)).

Lemma mask_row_at t b :
  b < bs -> 1 <= t <= 2 * n -> row_inv_at t b ->
  nth b (step_mask bs n demands t (state t)) [] =
  row_mask n (nth b demands []) (nth b (ls_visited (state t)) [])
    (nth b (ls_capacities (state t)) 0%Q)
    (nth (t - 1) (nth b (ls_sequences (state t)) []) 0).
Proof.
  intros Hb Ht I. unfold step_mask. rewrite next_node_mask_row by exact Hb.
  rewrite current_nodes_row, gather_in_range; auto.
  rewrite (inv_len_seq _ _ _ _ _ I). lia.
Qed.

Lemma chosen_legal t b :
  b < bs -> 1 <= t <= 2 * n -> row_inv_at t b ->
  legal n (nth b demands []) (nth b (ls_visited (state t)) [])
    (nth b (ls_capacities (state t)) 0%Q)
    (nth (t - 1) (nth b (ls_sequences (state t)) []) 0) (chosen_at t b).
Proof.
  intros Hb Ht I. unfold legal.
  rewrite <- (mask_row_at t b Hb Ht I).
  apply step_choice_legal; auto.
  destruct (legal_exists n (nth b demands []) Hn (Hdepot b Hb)
              (fun j Hj => Hfit b j Hb Hj) _ _ _ _ I) as [c [Hc Hm]].
  exists c. split; auto. now rewrite (mask_row_at t b Hb Ht I).
Qed.

Lemma row_inv_all t b : b < bs -> 1 <= t <= 2 * n -> row_inv_at t b.
Proof.
  intros Hb. induction t as [|t IH]; intros Ht; [lia|].
  destruct (Nat.eq_dec t 0) as [->|Ht0].
  - rewrite state_1. unfold decode_init.
    cbn [ls_sequences ls_visited ls_capacities].
    rewrite (@nth_map_in _ _ (fun row => set_at row 0 1%Z) _ b [] [])
      by (now rewrite repeat_length).
    rewrite !nth_repeat_in by exact Hb.
    apply row_inv_init with (d := nth b demands []); auto.
  - assert (Ht' : 1 <= t <= 2 * n) by lia.
    specialize (IH Ht').
    pose proof (chosen_legal t b Hb Ht' IH) as L.
    destruct (state_row_S t b (proj1 Ht') Hb) as (E1 & E2 & E3).
    rewrite E1, E2, E3.
    rewrite gather_in_range by (rewrite (Hlen b Hb); apply L).
    apply row_inv_step with (d := nth b demands []); auto; try lia.
Qed.

(** *** Nonnegative demands *)

Hypothesis Hnonneg : forall b j, (0 <= nth j (nth b demands []) 0)%Q.

Local Abbreviation cap_inv_at t b :=
  (cap_inv (nth b demands []) t (nth b (ls_sequences (state t)) [])
     (nth b (ls_capacities (state t)) 0%Q)).

Lemma cap_inv_all t b : b < bs -> 1 <= t <= 2 * n -> cap_inv_at t b.
Proof.
  intros Hb. induction t as [|t IH]; intros Ht; [lia|].
  destruct (Nat.eq_dec t 0) as [->|Ht0].
  - rewrite state_1. unfold decode_init.
    cbn [ls_sequences ls_visited ls_capacities].
    rewrite !nth_repeat_in by exact Hb.
    apply cap_inv_init with (N := n); auto.
  - assert (Ht' : 1 <= t <= 2 * n) by lia.
    specialize (IH Ht').
    pose proof (row_inv_all t b Hb Ht') as I.
    pose proof (chosen_legal t b Hb Ht' I) as L.
    destruct (state_row_S t b (proj1 Ht') Hb) as (E1 & E2 & E3).
    rewrite E1, E3.
    rewrite gather_in_range by (rewrite (Hlen b Hb); apply L).
    apply cap_inv_step with (N := n) (vis := nth b (ls_visited (state t)) []);
      auto; try lia.
Qed.
End BatchInvariant.

Lemma log_softmax_fin (exp_ ln_ : Q -> Q) (x : list ext) (c : nat) :
  c < length x -> is_fin (nth c x NegInf) = true ->
  is_fin (gather NegInf (log_softmax exp_ ln_ x) c) = true.
Proof.
  intros Hc Hf. unfold log_softmax.
  assert (Hm : is_fin (ext_max x) = true).
  { apply ext_max_fold_fin. right. exists (nth c x NegInf).
    split; auto. now apply nth_In. }
  destruct (ext_max x) as [|m]; [discriminate|].
  rewrite gather_in_range by (now rewrite length_map).
  rewrite (@nth_map_in _ _ _ x c NegInf NegInf) by exact Hc.
  destruct (nth c x NegInf); [discriminate|reflexivity].
Qed.

(** ** Runs of [solve] *)

Section SolveRun.
Variable key : Type.
Variable split_at : key -> nat -> nat -> key.
Variable random_bits : key -> N.
Variables exp_ ln_ : Q -> Q.
Variables tensor enc_params dec_params : Type.
Variable net : Layers key tensor enc_params dec_params.
Variable params : enc_params * dec_params.
Variable rng : key.
Variable coords : list (list (R * R)).
Variable demands : list (list Q).
Variable deterministic : bool.

Let bs := length coords.
Let n := length (hd [] coords).
Let dec := decode exp_ net params deterministic.
Let encoded :=
  encode net params deterministic (split_at rng 2 1) (coords, demands).
Let state :=
  decode_state split_at random_bits exp_ ln_ dec deterministic bs n demands
    encoded (split_at rng 2 0).

Lemma solve_state_eq t :
  solve_state split_at random_bits exp_ ln_ net params rng (coords, demands)
    deterministic t = state t.
Proof. reflexivity. Qed.

Lemma solve_mask_eq t :
  solve_mask split_at random_bits exp_ ln_ net params rng (coords, demands)
    deterministic t = step_mask bs n demands t (state t).
Proof. reflexivity. Qed.

Lemma solve_logits_eq t :
  solve_logits split_at random_bits exp_ ln_ net params rng (coords, demands)
    deterministic t =
  step_logits split_at dec bs n demands encoded t (state t).
Proof. reflexivity. Qed.

Lemma solve_routes_eq :
  snd (solve split_at random_bits exp_ ln_ net params rng (coords, demands)
         deterministic) = ls_sequences (state (2 * n)).
Proof. reflexivity. Qed.

Lemma solve_log_probs_eq :
  snd (fst (solve split_at random_bits exp_ ln_ net params rng
              (coords, demands) deterministic)) =
  ls_log_probs (state (2 * n)).
Proof. reflexivity. Qed.

(** The node selected for batch element [b] in iteration [t]. *)
Let pick (t b : nat) : nat :=
  chosen key split_at random_bits exp_ ln_ tensor dec deterministic bs n
    demands encoded (split_at rng 2 0) t b.

Lemma run_row_S t b :
  1 <= t -> b < bs ->
  nth b (ls_sequences (state (S t))) [] =
    set_at (nth b (ls_sequences (state t)) []) t (pick t b)
  /\ nth b (ls_visited (state (S t))) [] =
    set_at (nth b (ls_visited (state t)) []) (pick t b) 1%Z
  /\ nth b (ls_capacities (state (S t))) 0%Q =
    (if Nat.eqb (pick t b) 0 then 1%Q
     else (nth b (ls_capacities (state t)) 0
           - gather 0 (nth b demands []) (pick t b))%Q).
Proof. intros Ht Hb. now apply state_row_S. Qed.

Lemma run_init : state 1 = decode_init bs n (split_at rng 2 0).
Proof. apply state_1. Qed.

Lemma run_seq_length t b :
  b < bs -> 1 <= t -> length (nth b (ls_sequences (state t)) []) = 2 * n.
Proof.
  intros Hb. induction t as [|t IH]; intros Ht; [lia|].
  destruct (Nat.eq_dec t 0) as [->|Ht0].
  - rewrite run_init. unfold decode_init. cbn [ls_sequences].
    rewrite nth_repeat_in by exact Hb. apply repeat_length.
  - destruct (run_row_S t b) as (E & _); [lia|exact Hb|].
    rewrite E, length_set_at. apply IH. lia.
Qed.

Lemma run_prefix_stable t t' b i :
  b < bs -> 1 <= t <= t' -> i < t ->
  nth i (nth b (ls_sequences (state t')) []) 0 =
  nth i (nth b (ls_sequences (state t)) []) 0.
Proof.
  intros Hb [Ht Htt] Hi. induction Htt as [|t' Htt IH]; [reflexivity|].
  destruct (run_row_S t' b) as (E & _); [lia|exact Hb|].
  rewrite E, nth_set_at_ne by lia. exact IH.
Qed.

Lemma run_route_entry t b :
  b < bs -> 1 <= t < 2 * n ->
  nth t (nth b (ls_sequences (state (2 * n))) []) 0 = pick t b.
Proof.
  intros Hb Ht.
  rewrite (run_prefix_stable (S t) (2 * n) b t) by (auto; lia).
  destruct (run_row_S t b) as (E & _); [lia|exact Hb|].
  rewrite E. apply nth_set_at_eq. rewrite run_seq_length; auto; lia.
Qed.

Lemma run_log_probs t b :
  b < bs -> 1 <= t ->
  nth b (ls_log_probs (state t)) NegInf =
  fold_left ext_add
    (map (fun i =>
            gather NegInf
              (log_softmax exp_ ln_
                 (nth b (step_logits split_at dec bs n demands encoded i
                           (state i)) []))
              (pick i b))
         (seq 1 (t - 1)))
    (Fin 0).
Proof.
  intros Hb. induction t as [|t IH]; intros Ht; [lia|].
  destruct (Nat.eq_dec t 0) as [->|Ht0].
  - rewrite run_init. unfold decode_init. cbn [ls_log_probs].
    now rewrite nth_repeat_in by exact Hb.
  - replace (S t - 1) with (S (t - 1)) by lia.
    rewrite seq_S, map_app, fold_left_app. cbn [map fold_left].
    replace (1 + (t - 1)) with t by lia.
    rewrite <- IH by lia.
    unfold state at 1. unfold decode_state.
    rewrite fori_loop_S by lia.
    rewrite iteration_log_probs by exact Hb. reflexivity.
Qed.

(** C7.  The log-probability returned by [solve] for batch element [b] is
    the sum, over the iterations [t = 1 .. 2n - 1] in that order, of the
    log-softmax of the logits of iteration [t] at the node written at
    position [t] of the returned route. *)
Theorem solve_log_probs_sum b :
  b < length coords ->
  let out :=
    solve split_at random_bits exp_ ln_ net params rng (coords, demands)
      deterministic in
  nth b (snd (fst out)) NegInf =
  fold_left ext_add
    (map (fun t =>
            gather NegInf
              (log_softmax exp_ ln_
                 (nth b (solve_logits split_at random_bits exp_ ln_ net
                           params rng (coords, demands) deterministic t)
                      []))
              (nth t (nth b (snd out) []) 0))
         (seq 1 (2 * length (hd [] coords) - 1)))
    (Fin 0).
Proof.
  intros Hb out. unfold out. rewrite solve_log_probs_eq, solve_routes_eq.
  fold n. fold bs in Hb.
  destruct (Nat.eq_dec n 0) as [E0|Hn].
  - rewrite E0. cbn [Nat.mul Nat.sub seq map fold_left].
    unfold state, decode_state. rewrite fori_loop_nil' by lia.
    unfold decode_init. cbn [ls_log_probs].
    now rewrite nth_repeat_in by exact Hb.
  - rewrite run_log_probs by (auto; lia).
    f_equal. apply map_ext_in. intros t Ht. apply in_seq in Ht.
    rewrite solve_logits_eq.
    rewrite run_route_entry by (auto; lia). reflexivity.
Qed.

Lemma run_mask_row t b :
  b < bs -> 1 <= t <= 2 * n ->
  nth b (step_mask bs n demands t (state t)) [] =
  row_mask n (nth b demands []) (nth b (ls_visited (state t)) [])
    (nth b (ls_capacities (state t)) 0%Q)
    (nth (t - 1) (nth b (ls_sequences (state t)) []) 0).
Proof.
  intros Hb Ht. unfold step_mask. rewrite next_node_mask_row by exact Hb.
  rewrite current_nodes_row, gather_in_range; auto.
  rewrite run_seq_length; auto; lia.
Qed.

(** *** Shapes of what [solve] returns *)

Lemma run_shapes t :
  length (ls_sequences (state t)) = bs /\ length (ls_log_probs (state t)) = bs.
Proof.
  destruct (Nat.le_gt_cases t 1) as [Ht|Ht].
  - unfold state, decode_state. rewrite fori_loop_nil' by exact Ht.
    unfold decode_init. cbn [ls_sequences ls_log_probs].
    now rewrite !repeat_length.
  - destruct t as [|t]; [lia|].
    unfold state, decode_state. rewrite fori_loop_S by lia.
    unfold decode_iteration, split2. cbv zeta.
    destruct (select_nodes _ _ _ _ _ _ _) as [r nn].
    cbn [ls_sequences ls_log_probs]. now rewrite !length_map_arange.
Qed.

(** [solve] returns one cost, one log-probability and one route per
    instance of the batch, and every route has [2n] entries. *)
Theorem solve_output_shapes :
  let out :=
    solve split_at random_bits exp_ ln_ net params rng (coords, demands)
      deterministic in
  length (fst (fst out)) = length coords
  /\ length (snd (fst out)) = length coords
  /\ length (snd out) = length coords
  /\ forall b, b < length coords ->
       length (nth b (snd out) []) = 2 * length (hd [] coords).
Proof.
  intros out.
  assert (Hr : snd out = ls_sequences (state (2 * n))) by reflexivity.
  assert (Hl : snd (fst out) = ls_log_probs (state (2 * n))) by reflexivity.
  assert (Hc : fst (fst out) = get_costs coords (snd out)) by reflexivity.
  destruct (run_shapes (2 * n)) as [S1 S2]. fold bs.
  rewrite Hc, Hl, Hr. unfold get_costs. rewrite length_map2, S1, S2.
  repeat split; try lia.
  intros b Hb. fold n. destruct (Nat.eq_dec n 0) as [E0|Hn].
  - rewrite E0. unfold state, decode_state. rewrite fori_loop_nil' by lia.
    unfold decode_init. cbn [ls_sequences]. rewrite E0.
    now rewrite nth_repeat_in by exact Hb.
  - apply run_seq_length; auto; lia.
Qed.

Hypothesis exp_pos : forall x, (0 < exp_ x)%Q.
Hypothesis Hvalid : valid_problem (coords, demands) = true.

Lemma run_row_inv t b :
  b < bs -> 1 <= t <= 2 * n ->
  row_inv n t (nth b (ls_sequences (state t)) [])
    (nth b (ls_visited (state t)) []) (nth b (ls_capacities (state t)) 0%Q).
Proof.
  intros Hb Ht.
  apply (row_inv_all key split_at random_bits exp_ ln_ tensor dec
           deterministic bs n demands encoded (split_at rng 2 0) exp_pos
           (PointerDecoder_respects_mask exp_ net params deterministic)).
  - now destruct (valid_problem_spec coords demands b Hvalid Hb).
  - intros b' Hb'. now destruct (valid_problem_spec coords demands b' Hvalid Hb') as (_ & ? & _).
  - intros b' Hb'. now destruct (valid_problem_spec coords demands b' Hvalid Hb') as (_ & _ & ? & _).
  - intros b' j Hb' Hj.
    destruct (valid_problem_spec coords demands b' Hvalid Hb') as (_ & _ & _ & H).
    now apply H.
  - exact Hb.
  - exact Ht.
Qed.
Lemma valid_n : 0 < n.
Proof.
  unfold valid_problem in Hvalid. fold n in Hvalid.
  repeat (apply andb_prop in Hvalid; destruct Hvalid as [Hvalid _]).
  now apply Nat.ltb_lt.
Qed.

Lemma valid_len b : b < bs -> length (nth b demands []) = n.
Proof. intros Hb. now destruct (valid_problem_spec coords demands b Hvalid Hb) as (_ & ? & _). Qed.

Lemma valid_depot b : b < bs -> (nth 0 (nth b demands []) 0 == 0)%Q.
Proof. intros Hb. now destruct (valid_problem_spec coords demands b Hvalid Hb) as (_ & _ & ? & _). Qed.

Lemma valid_fit b j : b < bs -> j < n -> (nth j (nth b demands []) 0 <= 1)%Q.
Proof.
  intros Hb Hj.
  destruct (valid_problem_spec coords demands b Hvalid Hb) as (_ & _ & _ & H).
  now apply H.
Qed.

Lemma run_pick_legal t b :
  b < bs -> 1 <= t <= 2 * n ->
  legal n (nth b demands []) (nth b (ls_visited (state t)) [])
    (nth b (ls_capacities (state t)) 0%Q)
    (nth (t - 1) (nth b (ls_sequences (state t)) []) 0) (pick t b).
Proof.
  intros Hb Ht. unfold pick.
  apply chosen_legal; auto using valid_n, valid_depot, valid_fit.
  - apply PointerDecoder_respects_mask.
  - now apply run_row_inv.
Qed.

(** C2.  For a problem whose demands are at most 1 with depot demand 0,
    the mask computed in every iteration [t = 1 .. 2n - 1] of a run of
    [solve] leaves some node allowed, for every batch element. *)
Theorem mask_leaves_node_allowed t b :
  1 <= t <= 2 * length (hd [] coords) - 1 -> b < length coords ->
  exists j, j < length (hd [] coords) /\
    get2 0%Z (solve_mask split_at random_bits exp_ ln_ net params rng
                (coords, demands) deterministic t) b j = 0%Z.
Proof.
  intros Ht Hb. fold n in Ht |- *. fold bs in Hb.
  assert (Ht' : 1 <= t <= 2 * n) by lia.
  destruct (legal_exists n (nth b demands []) valid_n (valid_depot b Hb)
              (fun j Hj => valid_fit b j Hb Hj) _ _ _ _
              (run_row_inv t b Hb Ht')) as [c [Hc Hm]].
  exists c. split; auto.
  rewrite solve_mask_eq. unfold get2. now rewrite run_mask_row.
Qed.

(** C4.  For such a problem every customer index appears in the route of
    length [2n] that [solve] returns. *)
Theorem every_customer_in_route b j :
  b < length coords -> 1 <= j < length (hd [] coords) ->
  let route :=
    nth b (snd (solve split_at random_bits exp_ ln_ net params rng
                  (coords, demands) deterministic)) [] in
  length route = 2 * length (hd [] coords)
  /\ exists i, i < 2 * length (hd [] coords) /\ nth i route 0 = j.
Proof.
  intros Hb Hj route. unfold route. rewrite solve_routes_eq.
  fold n in Hj |- *. fold bs in Hb. pose proof valid_n as Hn.
  split; [apply run_seq_length; auto; lia|].
  apply (row_inv_complete n Hn (2 * n) _ _ _ j
           (run_row_inv (2 * n) b Hb ltac:(lia))); lia.
Qed.

(** C5, as the code has it.  In every iteration the selected node differs
    from the node the vehicle stands on, except that once every customer
    is in the route the vehicle stays at the depot. *)
Theorem no_self_loop_until_served t b :
  1 <= t <= 2 * length (hd [] coords) - 1 -> b < length coords ->
  let route :=
    nth b (snd (solve split_at random_bits exp_ ln_ net params rng
                  (coords, demands) deterministic)) [] in
  nth t route 0 <> nth (t - 1) route 0
  \/ (nth t route 0 = 0 /\ nth (t - 1) route 0 = 0
      /\ forall j, 1 <= j < length (hd [] coords) ->
                   exists i, i < t /\ nth i route 0 = j).
Proof.
  intros Ht Hb route. unfold route. rewrite solve_routes_eq.
  fold n in Ht |- *. fold bs in Hb.
  assert (Ht' : 1 <= t <= 2 * n) by lia.
  pose proof (run_row_inv t b Hb Ht') as I.
  pose proof (run_pick_legal t b Hb Ht') as L.
  rewrite run_route_entry by (auto; lia).
  rewrite (run_prefix_stable t (2 * n) b (t - 1)) by (auto; lia).
  destruct (legal_cases n _ valid_n _ _ _ _ (inv_bits _ _ _ _ _ I) L)
    as [(_ & Hne & _)|[E [Hs|[Hcur _]]]].
  - now left.
  - destruct (Nat.eq_dec (nth (t - 1) (nth b (ls_sequences (state t)) []) 0) 0)
      as [Hc|Hc]; [|left; congruence].
    right. repeat split; auto. intros j Hj.
    rewrite row_served_iff in Hs.
    destruct (inv_bits _ _ _ _ _ I j) as [Hz|Ho].
    + exfalso. now apply (Hs j).
    + apply (inv_visited _ _ _ _ _ I j Hj) in Ho.
      destruct Ho as [i [Hi Hv]]. exists i. split; auto.
      rewrite (run_prefix_stable t (2 * n) b i) by (auto; lia). exact Hv.
  - left. congruence.
Qed.

(** *** The shape of a route *)

(** Every entry of a returned route is a node of the instance. *)
Theorem route_entries_are_nodes b i :
  b < length coords ->
  nth i (nth b (snd (solve split_at random_bits exp_ ln_ net params rng
                       (coords, demands) deterministic)) []) 0
  < length (hd [] coords).
Proof.
  intros Hb. rewrite solve_routes_eq. fold bs in Hb. pose proof valid_n as Hn.
  apply (inv_range _ _ _ _ _ (run_row_inv (2 * n) b Hb ltac:(lia))).
Qed.

(** No customer occurs twice in a returned route. *)
Theorem customer_visited_at_most_once b i j :
  b < length coords -> i < j < 2 * length (hd [] coords) ->
  let route :=
    nth b (snd (solve split_at random_bits exp_ ln_ net params rng
                  (coords, demands) deterministic)) [] in
  nth j route 0 <> 0 -> nth i route 0 <> nth j route 0.
Proof.
  intros Hb Hij route. unfold route. rewrite solve_routes_eq.
  fold n in Hij. fold bs in Hb.
  assert (Hj : 1 <= j <= 2 * n) by lia.
  pose proof (run_row_inv j b Hb Hj) as I.
  pose proof (run_pick_legal j b Hb Hj) as L.
  rewrite (run_route_entry j b) by (auto; lia).
  rewrite (run_prefix_stable j (2 * n) b i) by (auto; lia).
  intros Hc0 Heq.
  destruct (legal_cases n _ valid_n _ _ _ _ (inv_bits _ _ _ _ _ I) L)
    as [(_ & _ & Hv & _)|[E _]]; [|contradiction].
  assert (Hone : nth (pick j b) (nth b (ls_visited (state j)) []) 0%Z = 1%Z).
  { apply (inv_visited _ _ _ _ _ I (pick j b)).
    - destruct L as [Hlt _]. lia.
    - exists i. split; [lia|exact Heq]. }
  rewrite Hv in Hone. discriminate.
Qed.

(** Once every customer is in the route, the loop only writes the depot. *)
Theorem depot_only_after_all_served b t :
  b < length coords -> 1 <= t < 2 * length (hd [] coords) ->
  let route :=
    nth b (snd (solve split_at random_bits exp_ ln_ net params rng
                  (coords, demands) deterministic)) [] in
  (forall j, 1 <= j < length (hd [] coords) ->
             exists i, i < t /\ nth i route 0 = j) ->
  nth t route 0 = 0.
Proof.
  intros Hb Ht route. unfold route. rewrite solve_routes_eq.
  fold n in Ht |- *. fold bs in Hb. intros Hall.
  assert (Ht' : 1 <= t <= 2 * n) by lia.
  pose proof (run_row_inv t b Hb Ht') as I.
  pose proof (run_pick_legal t b Hb Ht') as L.
  rewrite (run_route_entry t b) by (auto; lia).
  destruct (legal_cases n _ valid_n _ _ _ _ (inv_bits _ _ _ _ _ I) L)
    as [(Hc0 & _ & Hv & _)|[E _]]; [|exact E].
  exfalso.
  assert (Hc : 1 <= pick t b < n) by (destruct L as [Hlt _]; lia).
  destruct (Hall _ Hc) as [i [Hi Hr]].
  rewrite (run_prefix_stable t (2 * n) b i) in Hr by (auto; lia).
  assert (Hone : nth (pick t b) (nth b (ls_visited (state t)) []) 0%Z = 1%Z).
  { apply (inv_visited _ _ _ _ _ I (pick t b) Hc). exists i. auto. }
  rewrite Hv in Hone. discriminate.
Qed.

(** A returned route starts and ends at the depot. *)
Theorem route_starts_and_ends_at_depot b :
  b < length coords ->
  let route :=
    nth b (snd (solve split_at random_bits exp_ ln_ net params rng
                  (coords, demands) deterministic)) [] in
  nth 0 route 0 = 0 /\ nth (2 * length (hd [] coords) - 1) route 0 = 0.
Proof.
  intros Hb route. unfold route. rewrite solve_routes_eq.
  fold n. fold bs in Hb. pose proof valid_n as Hn. split.
  - rewrite (run_prefix_stable 1 (2 * n) b 0) by (auto; lia).
    rewrite run_init. unfold decode_init. cbn [ls_sequences].
    rewrite nth_repeat_in by exact Hb. apply nth_repeat.
  - assert (Ht' : 1 <= 2 * n - 1 <= 2 * n) by lia.
    pose proof (run_row_inv (2 * n - 1) b Hb Ht') as I.
    pose proof (run_pick_legal (2 * n - 1) b Hb Ht') as L.
    rewrite (run_route_entry (2 * n - 1) b) by (auto; lia).
    destruct (legal_cases n _ valid_n _ _ _ _ (inv_bits _ _ _ _ _ I) L)
      as [(Hc0 & _ & Hv & _)|[E _]]; [|exact E].
    exfalso.
    assert (Hc : 1 <= pick (2 * n - 1) b < n) by (destruct L as [Hlt _]; lia).
    destruct (row_inv_complete n Hn (2 * n - 1) _ _ _ _ I ltac:(lia) Hc)
      as [i Hi].
    assert (Hone : nth (pick (2 * n - 1) b)
                     (nth b (ls_visited (state (2 * n - 1))) []) 0%Z = 1%Z).
    { apply (inv_visited _ _ _ _ _ I _ Hc). exists i. exact Hi. }
    rewrite Hv in Hone. discriminate.
Qed.

(** *** The log-probability of a route is finite *)

Lemma run_pick_logit_fin t b :
  b < bs -> 1 <= t <= 2 * n ->
  pick t b <
    length (nth b (step_logits split_at dec bs n demands encoded t (state t)) [])
  /\ is_fin (nth (pick t b)
               (nth b (step_logits split_at dec bs n demands encoded t
                         (state t)) []) NegInf) = true.
Proof.
  intros Hb Ht. destruct (run_pick_legal t b Hb Ht) as [Hlt Hm].
  rewrite <- run_mask_row in Hm by assumption.
  unfold step_logits.
  destruct (PointerDecoder_respects_mask exp_ net params deterministic
              (snd (split2 split_at (ls_rng (state t)))) encoded
              (current_nodes t (state t), ls_capacities (state t))
              (step_mask bs n demands t (state t))) as [_ Hrows].
  assert (Hml : length (step_mask bs n demands t (state t)) = bs)
    by apply next_node_mask_length.
  rewrite Hml in Hrows. destruct (Hrows b Hb) as [Hrl Hfin].
  assert (Hrow : length (nth b (step_mask bs n demands t (state t)) []) = n).
  { rewrite run_mask_row by assumption. apply row_mask_length. }
  rewrite Hrow in Hrl, Hfin. fold dec in Hrl, Hfin.
  split; [rewrite Hrl; exact Hlt|].
  rewrite Hfin by exact Hlt. now apply Z.eqb_eq.
Qed.

Lemma run_log_prob_fin t b :
  b < bs -> 1 <= t <= 2 * n ->
  is_fin (nth b (ls_log_probs (state t)) NegInf) = true.
Proof.
  intros Hb. induction t as [|t IH]; intros Ht; [lia|].
  destruct (Nat.eq_dec t 0) as [->|Ht0].
  - rewrite run_init. unfold decode_init. cbn [ls_log_probs].
    now rewrite nth_repeat_in by exact Hb.
  - assert (Ht' : 1 <= t <= 2 * n) by lia. specialize (IH Ht').
    unfold state at 1. unfold decode_state. rewrite fori_loop_S by lia.
    rewrite iteration_log_probs by exact Hb.
    destruct (run_pick_logit_fin t b Hb Ht') as [Hlt Hf].
    pose proof (log_softmax_fin exp_ ln_ _ _ Hlt Hf) as Hs.
    fold (decode_state split_at random_bits exp_ ln_ dec deterministic bs n
            demands encoded (split_at rng 2 0) t).
    fold state. fold (pick t b) in Hs.
    destruct (nth b (ls_log_probs (state t)) NegInf); [discriminate|].
    unfold pick, chosen in Hs. fold state in Hs.
    destruct (gather NegInf _ _); [discriminate|reflexivity].
Qed.

(** The log-probability that [solve] returns for a route is a number: the
    loop never adds the log-probability of a masked node. *)
Theorem solve_log_prob_finite b :
  b < length coords ->
  is_fin (nth b (snd (fst (solve split_at random_bits exp_ ln_ net params rng
                             (coords, demands) deterministic))) NegInf) = true.
Proof.
  intros Hb. rewrite solve_log_probs_eq. fold bs in Hb.
  pose proof valid_n. apply run_log_prob_fin; auto; lia.
Qed.

(** *** Nonnegative demands *)

Hypothesis Hnonneg : nonneg_demands (coords, demands) = true.

Lemma run_cap_inv t b :
  b < bs -> 1 <= t <= 2 * n ->
  cap_inv (nth b demands []) t (nth b (ls_sequences (state t)) [])
    (nth b (ls_capacities (state t)) 0%Q).
Proof.
  intros Hb Ht.
  apply (cap_inv_all key split_at random_bits exp_ ln_ tensor dec
           deterministic bs n demands encoded (split_at rng 2 0) exp_pos
           (PointerDecoder_respects_mask exp_ net params deterministic)
           valid_n valid_len valid_depot valid_fit
           (fun b' j => nonneg_demands_spec coords demands b' j Hnonneg)
           t b Hb Ht).
Qed.

(** C10.  For a problem whose demands lie in [0, 1] with depot demand 0,
    the remaining capacity of every batch element is 1 when the loop
    starts and lies in [0, 1] after every iteration. *)
Theorem capacity_in_unit_interval t b :
  1 <= t <= 2 * length (hd [] coords) -> b < length coords ->
  let capacity (t : nat) :=
    nth b (ls_capacities
             (solve_state split_at random_bits exp_ ln_ net params rng
                (coords, demands) deterministic t)) 0%Q in
  capacity 1 = 1%Q /\ (0 <= capacity t)%Q /\ (capacity t <= 1)%Q.
Proof.
  intros Ht Hb capacity. unfold capacity. rewrite !solve_state_eq.
  fold n in Ht. fold bs in Hb. repeat split.
  - rewrite run_init. unfold decode_init. cbn [ls_capacities].
    now rewrite nth_repeat_in.
  - apply (inv_cap_nonneg _ _ _ _ _ (run_row_inv t b Hb Ht)).
  - apply (cap_le_one _ _ _ _ (run_cap_inv t b Hb Ht)).
Qed.

End SolveRun.

(** ** The depot entry of the mask *)

(** C1, as the code has it.  In the mask built by an iteration, the depot
    entry of a batch element is 0 (allowed) whenever every customer of the
    element is marked visited; while some customer is not, the depot is
    forbidden exactly when the vehicle stands on it or its demand exceeds
    the remaining capacity. *)
Theorem depot_mask_by_design (key : Type) (bs n : nat)
    (demands : list (list Q)) (idx : nat) (s : loop_state key) (b : nat) :
  b < bs -> 0 < n ->
  let m0 := get2 0%Z (step_mask bs n demands idx s) b 0 in
  ((forall j, 1 <= j < n -> get2 0%Z (ls_visited s) b j <> 0%Z) -> m0 = 0%Z)
  /\ ((exists j, 1 <= j < n /\ get2 0%Z (ls_visited s) b j = 0%Z) ->
      (m0 = 0%Z \/ m0 = 1%Z)
      /\ (m0 = 1%Z <->
          nth b (current_nodes idx s) 0 = 0
          \/ (nth b (ls_capacities s) 0 < get2 0 demands b 0)%Q)).
Proof.
  intros Hb Hn m0. unfold m0, get2, step_mask.
  rewrite next_node_mask_row by exact Hb.
  rewrite row_mask_depot by exact Hn. split.
  - intros Hs. apply (row_served_iff n) in Hs. rewrite Hs. reflexivity.
  - intros [j [Hj Hz]].
    assert (Hs : row_served n (nth b (ls_visited s) []) = false).
    { destruct (row_served n (nth b (ls_visited s) [])) eqn:E; auto.
      rewrite row_served_iff in E. exfalso. now apply (E j). }
    rewrite Hs. cbn [negb b2z].
    destruct (Nat.eqb_spec (nth b (current_nodes idx s) 0) 0) as [Hc|Hc].
    + split; [now right|]. split; auto.
    + destruct (Qlt_bool (nth b (ls_capacities s) 0%Q)
                  (nth 0 (nth b demands []) 0%Q)) eqn:E; cbn [b2z Z.land].
      * apply Qlt_bool_iff in E. split; [now right|]. split; auto.
      * apply Qlt_bool_false_iff in E. split; [now left|].
        split; [discriminate|]. intros [H|H]; [contradiction|].
        apply Qlt_not_le in H. contradiction.
Qed.

(** ** Greedy decoding does not depend on the seed *)

Section Determinism.
Variable key : Type.
Variable split_at : key -> nat -> nat -> key.
Variable random_bits : key -> N.
Variables exp_ ln_ : Q -> Q.
Variables tensor enc_params dec_params : Type.
Variable net : Layers key tensor enc_params dec_params.
Variable params : enc_params * dec_params.

Lemma encode_deterministic (k1 k2 : key) (problems : VRP) :
  encode net params true k1 problems = encode net params true k2 problems.
Proof. reflexivity. Qed.

Lemma decode_ignores_key (det : bool) (k1 k2 : key) e st m :
  decode exp_ net params det k1 e st m = decode exp_ net params det k2 e st m.
Proof. reflexivity. Qed.

Lemma greedy_iteration_same bs n demands encoded idx s1 s2 :
  same_but_rng s1 s2 ->
  same_but_rng
    (decode_iteration split_at random_bits exp_ ln_
       (decode exp_ net params true) true bs n demands encoded idx s1)
    (decode_iteration split_at random_bits exp_ ln_
       (decode exp_ net params true) true bs n demands encoded idx s2).
Proof.
  destruct s1 as [r1 sq1 v1 c1 l1], s2 as [r2 sq2 v2 c2 l2].
  unfold same_but_rng. cbn [ls_sequences ls_visited ls_capacities ls_log_probs].
  intros (-> & -> & -> & ->).
  unfold decode_iteration, step_mask, current_nodes, select_nodes, split2.
  cbn [ls_sequences ls_visited ls_capacities ls_log_probs ls_rng].
  rewrite (decode_ignores_key true (split_at r1 2 1) (split_at r2 2 1)).
  repeat split.
Qed.

Lemma greedy_loop_same bs n demands encoded (idxs : list nat) : forall s1 s2,
  same_but_rng s1 s2 ->
  same_but_rng
    (fold_left (fun s i =>
                  decode_iteration split_at random_bits exp_ ln_
                    (decode exp_ net params true) true bs n demands encoded
                    i s) idxs s1)
    (fold_left (fun s i =>
                  decode_iteration split_at random_bits exp_ ln_
                    (decode exp_ net params true) true bs n demands encoded
                    i s) idxs s2).
Proof.
  induction idxs as [|i idxs IH]; intros s1 s2 H; simpl; auto.
  apply IH. now apply greedy_iteration_same.
Qed.

(** C6.  With [deterministic = true] the costs, log-probabilities and
    routes returned by [solve] are the same for any two seeds; in
    particular two calls with the same arguments agree. *)
Theorem solve_greedy_ignores_seed (rng1 rng2 : key) (problems : VRP) :
  solve split_at random_bits exp_ ln_ net params rng1 problems true =
  solve split_at random_bits exp_ ln_ net params rng2 problems true.
Proof.
  destruct problems as [coords demands].
  unfold solve, decode_greedy, decode_trace, decode_state, fori_loop, split2.
  cbn [fst snd].
  rewrite (encode_deterministic (split_at rng1 2 1) (split_at rng2 2 1)).
  destruct (greedy_loop_same (length coords) (length (hd [] coords)) demands
              (encode net params true (split_at rng2 2 1) (coords, demands))
              (seq 1 (2 * length (hd [] coords) - 1))
              (decode_init (length coords) (length (hd [] coords))
                 (split_at rng1 2 0))
              (decode_init (length coords) (length (hd [] coords))
                 (split_at rng2 2 0)))
    as (E1 & _ & _ & E4).
  { repeat split. }
  rewrite E1, E4. reflexivity.
Qed.
End Determinism.

(** ** The tour cost *)

Section TourCostFacts.
Local Open Scope R_scope.

Lemma euclid_self (p : R * R) : euclid p p = 0.
Proof.
  unfold euclid.
  replace ((fst p - fst p) * (fst p - fst p)
           + (snd p - snd p) * (snd p - snd p)) with 0 by ring.
  apply sqrt_0.
Qed.

(** An entry of the distance matrix that [get_cost] builds. *)
Lemma distance_entry (coords : list (R * R)) (a b : nat) :
  (a < length coords)%nat -> (b < length coords)%nat ->
  gather 0
    (gather []
       (map2 (map2 (fun t s =>
                      sqrt ((fst t - fst s) * (fst t - fst s)
                            + (snd t - snd s) * (snd t - snd s))))
             (map (fun p => repeat p (length coords)) coords)
             (repeat coords (length coords))) a) b =
  euclid (nth a coords (0, 0)) (nth b coords (0, 0)).
Proof.
  intros Ha Hb.
  set (f := fun t s : R * R =>
              sqrt ((fst t - fst s) * (fst t - fst s)
                    + (snd t - snd s) * (snd t - snd s))).
  assert (E : gather []
                (map2 (map2 f)
                   (map (fun p => repeat p (length coords)) coords)
                   (repeat coords (length coords))) a =
              map2 f (repeat (nth a coords (0, 0)) (length coords)) coords).
  { rewrite gather_in_range
      by (rewrite length_map2, length_map, repeat_length; lia).
    rewrite (nth_map2 (map2 f) _ _ a [] [] [])
      by (rewrite ?length_map, ?repeat_length; lia).
    rewrite (@nth_map_in _ _ (fun p => repeat p (length coords)) coords a
               (0, 0) []) by exact Ha.
    now rewrite nth_repeat_in by exact Ha. }
  rewrite E.
  rewrite gather_in_range by (rewrite length_map2, repeat_length; lia).
  rewrite (nth_map2 f _ _ b (0, 0) (0, 0) 0) by (rewrite ?repeat_length; lia).
  rewrite nth_repeat_in by exact Hb. reflexivity.
Qed.

Lemma get_cost_steps (coords : list (R * R)) (route : list nat) :
  Forall (fun x => (x < length coords)%nat) route ->
  get_cost coords route = tour_length_spec coords route.
Proof.
  unfold get_cost. cbv zeta.
  induction route as [|a [|b t] IH]; intros H; [reflexivity|reflexivity|].
  inversion H as [|? ? Ha H']; subst. inversion H' as [|? ? Hb _]; subst.
  change (removelast (a :: b :: t)) with (a :: removelast (b :: t)).
  cbn [tl map2 fold_right tour_length_spec].
  rewrite distance_entry by assumption.
  f_equal. apply IH. exact H'.
Qed.

Lemma tour_length_at_depot (coords : list (R * R)) (k : nat) :
  tour_length_spec coords (0%nat :: repeat 0%nat k) = 0.
Proof.
  induction k as [|k IH]; [reflexivity|].
  cbn [repeat]. cbn [repeat] in IH.
  change (tour_length_spec coords (0%nat :: 0%nat :: repeat 0%nat k))
    with (euclid (nth 0 coords (0, 0)) (nth 0 coords (0, 0))
          + tour_length_spec coords (0%nat :: repeat 0%nat k)).
  rewrite euclid_self, IH. ring.
Qed.

(** C8.  For a route whose entries are nodes of the instance, [get_cost]
    returns the sum over consecutive positions of the Euclidean distance
    between the two nodes; a step from a node to itself adds 0; and for the
    depot (0,0), A (1,0), B (0,1) the route depot, A, B, depot followed by
    any number of depot entries costs 1 + sqrt 2 + 1. *)
Theorem get_cost_is_tour_length (coords : list (R * R)) (route : list nat) :
  Forall (fun x => (x < length coords)%nat) route ->
  get_cost coords route = tour_length_spec coords route
  /\ (forall p, euclid p p = 0)
  /\ (forall k,
        get_cost demo_coords ([0; 1; 2; 0] ++ repeat 0 k)%nat
        = 1 + sqrt 2 + 1).
Proof.
  intros H. split; [now apply get_cost_steps|]. split; [exact euclid_self|].
  intros k. rewrite get_cost_steps.
  - cbn [app].
    change (tour_length_spec demo_coords
              (0 :: 1 :: 2 :: 0 :: repeat 0 k)%nat)
      with (euclid (0, 0) (1, 0)
            + (euclid (1, 0) (0, 1)
               + (euclid (0, 1) (0, 0)
                  + tour_length_spec demo_coords (0%nat :: repeat 0%nat k)))).
    rewrite tour_length_at_depot. unfold euclid. cbn [fst snd].
    replace ((0 - 1) * (0 - 1) + (0 - 0) * (0 - 0)) with 1 by ring.
    replace ((1 - 0) * (1 - 0) + (0 - 1) * (0 - 1)) with 2 by ring.
    replace ((0 - 0) * (0 - 0) + (1 - 0) * (1 - 0)) with 1 by ring.
    rewrite sqrt_1. ring.
  - cbn [app]. repeat (constructor; [simpl; lia|]).
    apply Forall_forall. intros x Hx. apply repeat_spec in Hx. subst. simpl. lia.
Qed.
End TourCostFacts.

(** ** The attention inside the pointer decoder *)

(** C9 fails on the code: the mask handed to [self.mha] marks the forbidden
    nodes, and the attention keeps the marked positions.  Whenever a batch
    element has a forbidden node, every allowed node gets attention weight
    0 and every forbidden node a positive weight. *)
Theorem attention_keeps_forbidden_nodes (key tensor enc_params dec_params : Type)
    (exp_ : Q -> Q) (net : Layers key tensor enc_params dec_params)
    (p : dec_params) (Q1 node_embeddings : tensor) (mask : NodeMask)
    (b h i j : nat) :
  (forall x, (0 < exp_ x)%Q) ->
  b < length mask -> h < num_heads net ->
  i < length (nth b mask []) -> j < length (nth b mask []) ->
  get2 0%Z mask b i <> 0%Z -> get2 0%Z mask b j = 0%Z ->
  let w :=
    nth h (nth b (PointerDecoder_attention exp_ net p Q1 node_embeddings mask)
                 []) [] in
  (nth j w 0 == 0)%Q /\ (0 < nth i w 0)%Q.
Proof.
  intros exp_pos Hb Hh Hi Hj Hforb Hallow w. unfold w, PointerDecoder_attention.
  rewrite nth_map_arange by exact Hb. rewrite nth_map_arange by exact Hh.
  unfold get2 in Hforb, Hallow.
  set (row := nth b mask []) in *.
  set (scores := map (mha_scores net p Q1 node_embeddings b h)
                     (arange (length row))).
  assert (Hs : length scores = length row)
    by (unfold scores; apply length_map_arange).
  unfold dot_product_attention_weights.
  assert (Hex : existsb truthy row = true).
  { apply existsb_exists. exists (nth i row 0%Z). split; [now apply nth_In|].
    unfold truthy. now apply negb_true_iff, Z.eqb_neq. }
  rewrite Hex.
  set (x := map2 (fun (m : Z) (s : Q) => if truthy m then Fin s else NegInf)
                 row scores).
  assert (Hx : forall k, k < length row ->
            nth k x NegInf =
            if truthy (nth k row 0%Z) then Fin (nth k scores 0%Q) else NegInf).
  { intros k Hk. unfold x.
    now rewrite (nth_map2 _ row scores k 0%Z 0%Q NegInf) by lia. }
  assert (Hxi : is_fin (nth i x NegInf) = true).
  { rewrite Hx by exact Hi. unfold truthy.
    destruct (Z.eqb_spec (nth i row 0%Z) 0); [contradiction|reflexivity]. }
  assert (Hxj : is_fin (nth j x NegInf) = false).
  { rewrite Hx by exact Hj. now rewrite Hallow. }
  destruct (softmax_weights exp_ exp_pos x (ex_intro _ i Hxi))
    as (Hlen & Hnn & _ & Hfin & Hpos).
  split; [|now apply Hpos].
  assert (Hge : (0 <= nth j (softmax exp_ x) 0)%Q).
  { apply Hnn. apply nth_In. rewrite Hlen. unfold x.
    rewrite length_map2. lia. }
  destruct (Qlt_le_dec 0%Q (nth j (softmax exp_ x) 0%Q)) as [Hlt|Hle].
  - apply Hfin in Hlt. congruence.
  - now apply Qle_antisym.
Qed.

(** ** The statements at the small instance *)

Lemma demo_exp_pos (x : Q) : (0 < demo_exp x)%Q.
Proof.
  unfold demo_exp. destruct (Qle_bool 0 x) eqn:E.
  - apply Qle_bool_iff in E. lra.
  - assert (Hx : (x < 0)%Q).
    { apply Qnot_le_lt. intros H. apply Qle_bool_iff in H. congruence. }
    apply Qlt_shift_div_l; lra.
Qed.

Lemma depot_mask_by_design_witness :
  let s := demo_state true 3 in
  let m0 := get2 0%Z (step_mask 1 3 (snd demo_problem) 3 s) 0 0 in
  ((forall j, 1 <= j < 3 -> get2 0%Z (ls_visited s) 0 j <> 0%Z) -> m0 = 0%Z)
  /\ ((exists j, 1 <= j < 3 /\ get2 0%Z (ls_visited s) 0 j = 0%Z) ->
      (m0 = 0%Z \/ m0 = 1%Z)
      /\ (m0 = 1%Z <->
          nth 0 (current_nodes 3 s) 0 = 0
          \/ (nth 0 (ls_capacities s) 0 < get2 0 (snd demo_problem) 0 0)%Q)).
Proof.
  apply (depot_mask_by_design N 1 3 (snd demo_problem) 3 (demo_state true 3) 0);
    lia.
Defined.

(** At the start of iteration 3 both customers are visited and the depot
    entry of the mask is 0: the depot is allowed, not forced forbidden. *)
Lemma depot_allowed_once_all_served :
  get2 0%Z (ls_visited (demo_state true 3)) 0 1 = 1%Z
  /\ get2 0%Z (ls_visited (demo_state true 3)) 0 2 = 1%Z
  /\ get2 0%Z (demo_mask true 3) 0 0 = 0%Z.
Proof. repeat split; reflexivity. Qed.

Lemma mask_leaves_node_allowed_witness :
  exists j, j < 3 /\ get2 0%Z (demo_mask false 2) 0 j = 0%Z.
Proof.
  apply (mask_leaves_node_allowed N demo_split demo_bits demo_exp demo_ln
           unit unit unit demo_net (tt, tt) 5%N [demo_coords]
           (snd demo_problem) false demo_exp_pos eq_refl 2 0);
    simpl; lia.
Defined.

Lemma every_customer_in_route_witness :
  let route := nth 0 (snd (demo_solve true)) [] in
  length route = 6 /\ exists i, i < 6 /\ nth i route 0 = 1.
Proof.
  apply (every_customer_in_route N demo_split demo_bits demo_exp demo_ln
           unit unit unit demo_net (tt, tt) 5%N [demo_coords]
           (snd demo_problem) true demo_exp_pos eq_refl 0 1);
    simpl; lia.
Defined.

Lemma no_self_loop_until_served_witness :
  let route := nth 0 (snd (demo_solve true)) [] in
  nth 4 route 0 <> nth 3 route 0
  \/ (nth 4 route 0 = 0 /\ nth 3 route 0 = 0
      /\ forall j, 1 <= j < 3 -> exists i, i < 4 /\ nth i route 0 = j).
Proof.
  apply (no_self_loop_until_served N demo_split demo_bits demo_exp demo_ln
           unit unit unit demo_net (tt, tt) 5%N [demo_coords]
           (snd demo_problem) true demo_exp_pos eq_refl 4 0);
    simpl; lia.
Defined.

(** In the greedy run the vehicle is at the depot at position 3 and stays
    there at position 4. *)
Lemma depot_repeats_in_route :
  nth 0 (snd (demo_solve true)) [] = [0; 2; 1; 0; 0; 0]
  /\ nth 4 (nth 0 (snd (demo_solve true)) []) 0
     = nth 3 (nth 0 (snd (demo_solve true)) []) 0.
Proof. split; reflexivity. Qed.

Lemma solve_log_probs_sum_witness :
  let out := demo_solve false in
  nth 0 (snd (fst out)) NegInf =
  fold_left ext_add
    (map (fun t =>
            gather NegInf
              (log_softmax demo_exp demo_ln
                 (nth 0 (solve_logits demo_split demo_bits demo_exp demo_ln
                           demo_net (tt, tt) 5%N demo_problem false t) []))
              (nth t (nth 0 (snd out) []) 0))
         (seq 1 5))
    (Fin 0).
Proof.
  apply (solve_log_probs_sum N demo_split demo_bits demo_exp demo_ln
           unit unit unit demo_net (tt, tt) 5%N [demo_coords]
           (snd demo_problem) false 0).
  simpl; lia.
Defined.

Lemma get_cost_is_tour_length_witness :
  get_cost demo_coords [0; 1; 2; 0; 0; 0]
  = tour_length_spec demo_coords [0; 1; 2; 0; 0; 0]
  /\ (forall p, euclid p p = 0%R)
  /\ (forall k,
        get_cost demo_coords ([0; 1; 2; 0] ++ repeat 0 k)
        = (1 + sqrt 2 + 1)%R).
Proof.
  apply (get_cost_is_tour_length demo_coords [0; 1; 2; 0; 0; 0]).
  repeat (constructor; [simpl; lia|]). constructor.
Defined.

Lemma attention_keeps_forbidden_nodes_witness :
  let w :=
    nth 0 (nth 0 (PointerDecoder_attention demo_exp demo_net tt tt tt
                    [[0; 1; 1]%Z]) []) [] in
  (nth 0 w 0 == 0)%Q /\ (0 < nth 1 w 0)%Q.
Proof.
  apply (attention_keeps_forbidden_nodes N unit unit unit demo_exp demo_net
           tt tt tt [[0; 1; 1]%Z] 0 0 1 0 demo_exp_pos);
    simpl; try lia; try discriminate; reflexivity.
Defined.

Lemma capacity_in_unit_interval_witness :
  let capacity (t : nat) := nth 0 (ls_capacities (demo_state false t)) 0%Q in
  capacity 1 = 1%Q /\ (0 <= capacity 2%nat)%Q /\ (capacity 2%nat <= 1)%Q.
Proof.
  apply (capacity_in_unit_interval N demo_split demo_bits demo_exp demo_ln
           unit unit unit demo_net (tt, tt) 5%N [demo_coords]
           (snd demo_problem) false demo_exp_pos eq_refl eq_refl 2 0);
    simpl; lia.
Defined.

(** ** More on one iteration *)

(** An iteration never clears a visited flag. *)
Theorem visited_never_cleared (key : Type)
    (split_at : key -> nat -> nat -> key) (random_bits : key -> N)
    (exp_ ln_ : Q -> Q) (tensor : Type) (decoder : DecoderFn key tensor)
    (deterministic : bool) (bs n : nat) (demands : list (list Q))
    (encoded : tensor) (idx : nat) (s : loop_state key) (b j : nat) :
  b < bs ->
  get2 0%Z (ls_visited s) b j <> 0%Z ->
  get2 0%Z
    (ls_visited
       (decode_iteration split_at random_bits exp_ ln_ decoder deterministic
          bs n demands encoded idx s)) b j <> 0%Z.
Proof.
  intros Hb Hv. unfold get2 in *.
  rewrite iteration_visited by exact Hb. rewrite nth_set_at.
  destruct (_ && _); [discriminate|exact Hv].
Qed.

(** In the mask of an iteration a customer is allowed exactly when it is
    not the current node, is not visited and its demand fits the remaining
    capacity. *)
Theorem customer_mask_rule (key : Type) (bs n : nat)
    (demands : list (list Q)) (idx : nat) (s : loop_state key) (b j : nat) :
  b < bs -> 1 <= j < n ->
  get2 0%Z (ls_visited s) b j = 0%Z \/ get2 0%Z (ls_visited s) b j = 1%Z ->
  (get2 0%Z (step_mask bs n demands idx s) b j = 0%Z <->
   nth b (current_nodes idx s) 0 <> j
   /\ get2 0%Z (ls_visited s) b j = 0%Z
   /\ (get2 0 demands b j <= nth b (ls_capacities s) 0)%Q).
Proof.
  intros Hb Hj Hbit. unfold get2 in *. unfold step_mask.
  rewrite next_node_mask_row by exact Hb.
  rewrite row_mask_customer by exact Hj.
  destruct (Nat.eqb_spec (nth b (current_nodes idx s) 0) j) as [E|E].
  - split; [discriminate|]. intros [H _]. contradiction.
  - rewrite Zlor_b2z_0, Qlt_bool_false_iff.
    destruct Hbit as [-> | ->]; simpl; intuition discriminate.
Qed.

Lemma PointerDecoder_call_logits (key tensor enc_params dec_params : Type)
    (exp_ : Q -> Q) (net : Layers key tensor enc_params dec_params)
    (p : dec_params) (e : tensor) (st : VRPDecoderState) (m : NodeMask)
    (deterministic : bool) :
  let lg := PointerDecoder_call exp_ net p e st m deterministic in
  length lg = length m /\
  forall b, b < length m ->
    length (nth b lg []) = length (nth b m []) /\
    forall j, j < length (nth b m []) ->
      is_fin (nth j (nth b lg []) NegInf) = Z.eqb (nth j (nth b m []) 0%Z) 0.
Proof.
  destruct st as [state_nodes capacities]. unfold PointerDecoder_call.
  cbv zeta. split; [apply length_map_arange|].
  intros b Hb. rewrite nth_map_arange by exact Hb.
  split; [apply length_map_arange|].
  intros j Hj. rewrite nth_map_arange by exact Hj.
  unfold get2, truthy. destruct (Z.eqb (nth j (nth b m []) 0%Z) 0); reflexivity.
Qed.

(** Whatever the mask, when it allows some node of a batch element the
    node selected from the logits of [PointerDecoder] is an allowed one, in
    greedy and in sampling mode. *)
Theorem selection_avoids_masked_nodes (key tensor enc_params dec_params : Type)
    (split_at : key -> nat -> nat -> key) (random_bits : key -> N)
    (exp_ : Q -> Q) (net : Layers key tensor enc_params dec_params)
    (p : dec_params) (node_embeddings : tensor) (states : VRPDecoderState)
    (mask : NodeMask) (deterministic : bool) (rng : key) (b : nat) :
  (forall x, (0 < exp_ x)%Q) ->
  b < length mask ->
  (exists j, j < length (nth b mask []) /\ get2 0%Z mask b j = 0%Z) ->
  let next_nodes :=
    snd (select_nodes split_at random_bits exp_ deterministic (length mask)
           rng
           (PointerDecoder_call exp_ net p node_embeddings states mask
              deterministic)) in
  nth b next_nodes 0 < length (nth b mask [])
  /\ get2 0%Z mask b (nth b next_nodes 0) = 0%Z.
Proof.
  intros exp_pos Hb [j [Hj Hm]] next_nodes. unfold next_nodes, get2 in *.
  destruct (PointerDecoder_call_logits key tensor enc_params dec_params exp_
              net p node_embeddings states mask deterministic) as [Hl Hrows].
  set (lg := PointerDecoder_call exp_ net p node_embeddings states mask
               deterministic) in *.
  destruct (Hrows b Hb) as [Hlr Hfin].
  assert (Hex : exists i, is_fin (nth i (nth b lg []) NegInf) = true).
  { exists j. rewrite Hfin by exact Hj. now apply Z.eqb_eq. }
  assert (Hsel : forall c, c < length (nth b lg []) ->
            is_fin (nth c (nth b lg []) NegInf) = true ->
            c < length (nth b mask [])
            /\ nth c (nth b mask []) 0%Z = 0%Z).
  { intros c Hc Hf. rewrite Hlr in Hc. split; auto.
    rewrite Hfin in Hf by exact Hc. now apply Z.eqb_eq. }
  unfold select_nodes. destruct deterministic; cbn [snd].
  - assert (E : nth b (map argmax lg) 0 = argmax (nth b lg []))
      by exact (map_nth argmax lg [] b).
    rewrite E. destruct (argmax_legal _ Hex) as [H1 H2]. now apply Hsel.
  - unfold split2. cbn [snd]. rewrite nth_map_arange by exact Hb.
    assert (E : nth b (map (softmax exp_) lg) [] = softmax exp_ (nth b lg []))
      by exact (map_nth (softmax exp_) lg [] b).
    rewrite E.
    match goal with
    | |- context [choice random_bits ?k _] =>
        destruct (choice_legal _ random_bits exp_ exp_pos k _ Hex) as [H1 H2]
    end.
    now apply Hsel.
Qed.

(** ** Further statements at the small instance *)

Lemma route_entries_are_nodes_witness :
  nth 1 (nth 0 (snd (demo_solve false)) []) 0 < 3.
Proof.
  apply (route_entries_are_nodes N demo_split demo_bits demo_exp demo_ln
           unit unit unit demo_net (tt, tt) 5%N [demo_coords]
           (snd demo_problem) false demo_exp_pos eq_refl 0 1).
  simpl; lia.
Defined.

Lemma customer_visited_at_most_once_witness :
  let route := nth 0 (snd (demo_solve true)) [] in
  nth 1 route 0 <> nth 2 route 0.
Proof.
  apply (customer_visited_at_most_once N demo_split demo_bits demo_exp
           demo_ln unit unit unit demo_net (tt, tt) 5%N [demo_coords]
           (snd demo_problem) true demo_exp_pos eq_refl 0 1 2).
  - simpl; lia.
  - simpl; lia.
  - discriminate.
Defined.

Lemma depot_only_after_all_served_witness :
  nth 3 (nth 0 (snd (demo_solve true)) []) 0 = 0.
Proof.
  apply (depot_only_after_all_served N demo_split demo_bits demo_exp demo_ln
           unit unit unit demo_net (tt, tt) 5%N [demo_coords]
           (snd demo_problem) true demo_exp_pos eq_refl 0 3).
  - simpl; lia.
  - simpl; lia.
  - intros j Hj. assert (Hc : j = 1 \/ j = 2) by (simpl in Hj; lia).
    destruct Hc as [-> | ->]; [exists 2 | exists 1]; split;
      [lia | reflexivity | lia | reflexivity].
Defined.

Lemma route_starts_and_ends_at_depot_witness :
  let route := nth 0 (snd (demo_solve false)) [] in
  nth 0 route 0 = 0 /\ nth 5 route 0 = 0.
Proof.
  apply (route_starts_and_ends_at_depot N demo_split demo_bits demo_exp
           demo_ln unit unit unit demo_net (tt, tt) 5%N [demo_coords]
           (snd demo_problem) false demo_exp_pos eq_refl 0).
  simpl; lia.
Defined.

Lemma solve_log_prob_finite_witness :
  is_fin (nth 0 (snd (fst (demo_solve false))) NegInf) = true.
Proof.
  apply (solve_log_prob_finite N demo_split demo_bits demo_exp demo_ln
           unit unit unit demo_net (tt, tt) 5%N [demo_coords]
           (snd demo_problem) false demo_exp_pos eq_refl 0).
  simpl; lia.
Defined.

Lemma visited_never_cleared_witness :
  get2 0%Z (ls_visited (demo_state true 2)) 0 2 = 1%Z
  /\ get2 0%Z
       (ls_visited
          (decode_iteration demo_split demo_bits demo_exp demo_ln
             (decode demo_exp demo_net (tt, tt) true) true 1 3
             (snd demo_problem) tt 2 (demo_state true 2))) 0 2 <> 0%Z.
Proof.
  split; [reflexivity|].
  apply (visited_never_cleared N demo_split demo_bits demo_exp demo_ln unit
           (decode demo_exp demo_net (tt, tt) true) true 1 3
           (snd demo_problem) tt 2 (demo_state true 2) 0 2).
  - lia.
  - discriminate.
Defined.

Lemma customer_mask_rule_witness :
  get2 0%Z (step_mask 1 3 (snd demo_problem) 2 (demo_state true 2)) 0 1 = 0%Z
  <-> nth 0 (current_nodes 2 (demo_state true 2)) 0 <> 1
      /\ get2 0%Z (ls_visited (demo_state true 2)) 0 1 = 0%Z
      /\ (get2 0 (snd demo_problem) 0 1
          <= nth 0 (ls_capacities (demo_state true 2)) 0)%Q.
Proof.
  apply (customer_mask_rule N 1 3 (snd demo_problem) 2 (demo_state true 2) 0 1).
  - lia.
  - lia.
  - left. reflexivity.
Defined.

Lemma selection_avoids_masked_nodes_witness :
  let next_nodes :=
    snd (select_nodes demo_split demo_bits demo_exp false 1 5%N
           (PointerDecoder_call demo_exp demo_net tt tt ([0], [1%Q])
              [[1; 0; 1]%Z] false)) in
  nth 0 next_nodes 0 < 3 /\ get2 0%Z [[1; 0; 1]%Z] 0 (nth 0 next_nodes 0) = 0%Z.
Proof.
  apply (selection_avoids_masked_nodes N unit unit unit demo_split demo_bits
           demo_exp demo_net tt tt ([0], [1%Q]) [[1; 0; 1]%Z] false 5%N 0
           demo_exp_pos).
  - simpl; lia.
  - exists 1. split; [simpl; lia | reflexivity].
Defined.
